(** * TallerLexico: the lexical scanner of [lexer_taller.py] and [lexer,0,0.py]

    Both source files contain the same [Token], [Lexer.tokenize] and
    [Lexer._advance_position]; the embedding below follows that code line by
    line.  Python values are modelled as follows.

    - a [str] is the list of its Unicode code points ([ord] of each
      character), a code point being an [N];
    - an [int] is a [Z] (Python integers are unbounded);
    - the [while] loop of [tokenize] is a function on an explicit loop state
      (the local variables [pos], [line], [col], [tokens]) iterated with a
      fuel argument; [tokenize] supplies [len(text)] units, which is shown
      to be always enough;
    - an exception is a value of type [Error]. *)

From Stdlib Require Import String Ascii ZArith NArith Bool List Sorted Lia.
From Stdlib Require Import DecimalString.
From Stdlib Require DecimalPos DecimalZ.
Import ListNotations.

Local Open Scope string_scope.
Local Open Scope list_scope.
Local Open Scope Z_scope.

(** ** Python strings *)

Definition char := N.
Definition str := list char.

(** [ord(c)] of an ASCII character. *)
Definition ord (c : ascii) : char := N_of_ascii c.

(** A string literal of the source, as the list of its code points. *)
Definition lit (s : string) : str := map ord (list_ascii_of_string s).

(** [len(s)] *)
Definition len (s : str) : Z := Z.of_nat (length s).

(** [s[pos:]] for [0 <= pos] *)
Definition slice_from (s : str) (pos : Z) : str := skipn (Z.to_nat pos) s.

(** [s[pos]] for [0 <= pos < len(s)]; the default is never returned under
    the loop guard [pos < len(text)]. *)
Definition index (s : str) (pos : Z) : char := nth (Z.to_nat pos) s 0%N.

Definition newline : char := 10%N.

(** [s.count(ch)] for a one-character needle. *)
Fixpoint count (s : str) (ch : char) : Z :=
  match s with
  | [] => 0
  | c :: s' => (if N.eqb c ch then 1 else 0) + count s' ch
  end.

(** [s.rfind(ch)] for a one-character needle: the highest index holding
    [ch], or [-1] when there is none. *)
Fixpoint rfind (s : str) (ch : char) : Z :=
  match s with
  | [] => -1
  | c :: s' =>
      let r := rfind s' ch in
      if 0 <=? r then r + 1 else if N.eqb c ch then 0 else -1
  end.

(** ** The regular expression [master_pattern]

    The pattern is an alternation of five named groups, each of which is a
    single character class, repeated with [+] in the first three.  Python's
    [re] tries the alternatives from left to right at the given position; a
    greedy [+] over a class that nothing follows takes the longest run. *)

(** [\s] on a [str] pattern: the Unicode whitespace characters, those for
    which [str.isspace] holds.  They are tab, newline, vertical tab, form
    feed, carriage return (9 to 13), the separators 28 to 31, space (32),
    next line (133), no-break space (160) and the spaces and separators
    U+1680, U+2000 to U+200A, U+2028, U+2029, U+202F, U+205F, U+3000. *)
Definition is_space (c : char) : bool :=
  ((9 <=? c) && (c <=? 13) || (28 <=? c) && (c <=? 32)
   || (c =? 133) || (c =? 160) || (c =? 5760)
   || (8192 <=? c) && (c <=? 8202)
   || (c =? 8232) || (c =? 8233) || (c =? 8239) || (c =? 8287)
   || (c =? 12288))%N.

(** [[a-z]] *)
Definition is_lower (c : char) : bool := ((97 <=? c) && (c <=? 122))%N.

(** [[0-9]] *)
Definition is_digit (c : char) : bool := ((48 <=? c) && (c <=? 57))%N.

(** [[+\-*/=]] *)
Definition is_operator (c : char) : bool :=
  ((c =? 43) || (c =? 45) || (c =? 42) || (c =? 47) || (c =? 61))%N.

(** [[();]] *)
Definition is_delimiter (c : char) : bool :=
  ((c =? 40) || (c =? 41) || (c =? 59))%N.

Inductive Regex : Type :=
| Plus (cls : char -> bool)      (* [C+] *)
| One (cls : char -> bool).      (* [C]  *)

Definition master_pattern : list (string * Regex) :=
  [ ("WHITESPACE", Plus is_space);
    ("IDENTIFIER", Plus is_lower);
    ("INTEGER", Plus is_digit);
    ("OPERATOR", One is_operator);
    ("DELIMITER", One is_delimiter) ].

(** The longest prefix of [s] inside the class. *)
Fixpoint span (cls : char -> bool) (s : str) : str :=
  match s with
  | [] => []
  | c :: s' => if cls c then c :: span cls s' else []
  end.

(** The text a group matches at the head of [s], if any. *)
Definition match_group (r : Regex) (s : str) : option str :=
  match r with
  | Plus cls => match span cls s with [] => None | m => Some m end
  | One cls =>
      match s with
      | [] => None
      | c :: _ => if cls c then Some [c] else None
      end
  end.

(** A match object: [lastgroup], [group(lastgroup)] and [end()]. *)
Record Match : Type := mkMatch {
  lastgroup : string;
  group : str;
  m_end : Z
}.

Fixpoint match_alternatives (alts : list (string * Regex)) (s : str) (pos : Z)
  : option Match :=
  match alts with
  | [] => None
  | (name, r) :: alts' =>
      match match_group r s with
      | Some m => Some (mkMatch name m (pos + len m))
      | None => match_alternatives alts' s pos
      end
  end.

(** [pattern.match(text, pos)] *)
Definition pattern_match (pattern : list (string * Regex)) (text : str) (pos : Z)
  : option Match :=
  match_alternatives pattern (slice_from text pos) pos.

(** ** Token *)

Record Token : Type := mkToken {
  type : string;
  lexeme : str;
  line : Z;
  col : Z
}.

(** ** Lexer *)

Definition keywords : list str := [lit "if"; lit "else"; lit "while"].

Definition str_eq_dec : forall a b : str, {a = b} + {a <> b} :=
  list_eq_dec N.eq_dec.

(** [lexeme in self.keywords] *)
Definition is_keyword (lexeme : str) : bool :=
  if in_dec str_eq_dec lexeme keywords then true else false.

Definition _advance_position (lexeme : str) (line col : Z) : Z * Z :=
  let newlines := count lexeme newline in
  if newlines =? 0 then (line, col + len lexeme)
  else
    let last_newline_index := rfind lexeme newline in
    let chars_after_last_newline := len lexeme - last_newline_index - 1 in
    (line + newlines, 1 + chars_after_last_newline).

Inductive Error : Type :=
| ValueError (bad_char : char) (line col : Z)
| RuntimeError (kind : string).

(** The local variables of [tokenize]. *)
Record State : Type := mkState {
  st_pos : Z;
  st_line : Z;
  st_col : Z;
  st_tokens : list Token
}.

Inductive Step : Type :=
| Continue (st : State)
| Raise (e : Error).

(** One iteration of the [while] loop, entered with [pos < len(text)].
    [lastgroup] is always the name of one of the five groups; the source
    raises [RuntimeError] on any other value, which is kept here as the
    last branch of the chain of tests on [kind]. *)
Definition loop_body (text : str) (st : State) : Step :=
  match pattern_match master_pattern text (st_pos st) with
  | None =>
      let bad_char := index text (st_pos st) in
      Raise (ValueError bad_char (st_line st) (st_col st))
  | Some m =>
      let kind := lastgroup m in
      let lexeme := group m in
      let start_line := st_line st in
      let start_col := st_col st in
      let '(line, col) := _advance_position lexeme (st_line st) (st_col st) in
      if kind =? "WHITESPACE" then
        Continue (mkState (m_end m) line col (st_tokens st))
      else
        let token_type :=
          if kind =? "IDENTIFIER" then
            Some (if is_keyword lexeme then "KEYWORD" else "IDENTIFIER")
          else if kind =? "INTEGER" then Some "INTEGER"
          else if kind =? "OPERATOR" then Some "OPERATOR"
          else if kind =? "DELIMITER" then Some "DELIMITER"
          else None in
        match token_type with
        | None => Raise (RuntimeError kind)
        | Some token_type =>
            Continue
              (mkState (m_end m) line col
                 (st_tokens st
                    ++ [mkToken token_type lexeme start_line start_col]))
        end
  end%string.

Inductive Result : Type :=
| Return (tokens : list Token)
| Raised (e : Error).

(** The [while] loop; [None] stands for fuel running out. *)
Fixpoint while_loop (fuel : nat) (text : str) (st : State) : option Result :=
  if st_pos st <? len text then
    match fuel with
    | O => None
    | S fuel' =>
        match loop_body text st with
        | Raise e => Some (Raised e)
        | Continue st' => while_loop fuel' text st'
        end
    end
  else Some (Return (st_tokens st)).

Definition initial : State := mkState 0 1 1 [].

Definition tokenize (text : str) : option Result :=
  while_loop (length text) text initial.

(** * Presentation and command line

    [format_tokens] and [main] differ between the two source files; the
    module [Taller] holds those of [lexer_taller.py] and the module [Demo]
    those of [lexer,0,0.py].  [print] is modelled by the list of the strings
    printed, one per call. *)

Definition space : char := 32%N.

(** [format(s, "<width")], the [{s:<width}] of an f-string: [s] padded with
    spaces on the right up to [width] characters, unchanged if longer. *)
Definition ljust (s : str) (width : Z) : str :=
  s ++ repeat space (Z.to_nat (width - len s)).

(** [s * n] *)
Definition times (s : str) (n : Z) : str := concat (repeat s (Z.to_nat n)).

(** [sep.join(lines)] *)
Fixpoint join (sep : str) (lines : list str) : str :=
  match lines with
  | [] => []
  | l :: lines' =>
      match lines' with
      | [] => l
      | _ :: _ => l ++ sep ++ join sep lines'
      end
  end.

(** [str(n)] of an [int], which is also its [{n}] in an f-string: the
    decimal digits, after a minus sign for a negative number. *)
Definition repr (n : Z) : str := lit (NilZero.string_of_int (Z.to_int n)).

(** [s.lstrip()] and [s.strip()] *)
Fixpoint lstrip (s : str) : str :=
  match s with
  | [] => []
  | c :: s' => if is_space c then lstrip s' else s
  end.

Definition strip (s : str) : str := rev (lstrip (rev (lstrip s))).

(** The message of the [ValueError] raised by [tokenize], which is what
    [str(error)] gives: the f-string
    [Error léxico: carácter inválido '{bad_char}' en línea {line}, columna {col}.] *)
Definition error_message (bad_char : char) (line col : Z) : str :=
  lit "Error l" ++ [233%N] ++ lit "xico: car" ++ [225%N] ++ lit "cter inv"
    ++ [225%N] ++ lit "lido '" ++ [bad_char] ++ lit "' en l" ++ [237%N]
    ++ lit "nea " ++ repr line ++ lit ", columna " ++ repr col ++ lit ".".

(** How a call of [main] ends: it returns an exit code, or an exception it
    does not catch propagates to the caller.  [Diverges] stands for the
    fuel of the loop running out. *)
Inductive Outcome : Type :=
| Exit (code : Z)
| Uncaught
| Diverges.

Module Taller.

(** The list [lines] of [format_tokens] when it is joined. *)
Definition format_lines (tokens : list Token) : list str :=
  let lines := [] in
  let header := ljust (lit "TYPE") 12 ++ lit " " ++ ljust (lit "LEXEME") 10 in
  let lines := lines ++ [header] in
  let lines := lines ++ [times (lit "-") (len header)] in
  fold_left
    (fun lines t =>
       lines ++ [ljust (lit (type t)) 12 ++ lit " " ++ ljust (lexeme t) 10])
    tokens lines.

Definition format_tokens (tokens : list Token) : str :=
  join [newline] (format_lines tokens).

(** The namespace returned by [parser.parse_args(argv)]. *)
Record Namespace : Type := mkNamespace {
  demo : bool;
  text : option str;
  file : option str
}.

(** [main], from the namespace [args] that [parse_args] returned on.
    [read_file] is the function of that name, whose result depends on the
    file system: [None] stands for an exception raised by [open] or
    [read].  The result is the strings printed and the outcome. *)
Definition main (read_file : option str -> option str) (args : Namespace)
  : list str * Outcome :=
  let source :=
    if demo args then Some (lit "if (x = 10) x = x + 1;")
    else match text args with
         | Some s => Some s
         | None => read_file (file args)
         end in
  match source with
  | None => ([], Uncaught)
  | Some source =>
      match tokenize source with
      | None => ([], Diverges)
      | Some (Raised (ValueError bad_char line col)) =>
          ([error_message bad_char line col], Exit 1)
      | Some (Raised (RuntimeError _)) => ([], Uncaught)
      | Some (Return tokens) =>
          ([ lit "=== C" ++ [243%N] ++ lit "digo fuente ===";
             source;
             [newline] ++ lit "=== Tokens ===";
             format_tokens tokens ],
           Exit 0)
      end
  end.

End Taller.

Module Demo.

Definition DEMO_SOURCE : str := lit "if (x = 10) x = x + 1;".

(** The module docstring. *)
Definition __doc__ : str :=
  [newline] ++ lit "lexer,0,0.py (DEMO)" ++ [newline; newline]
    ++ lit "Analizador l" ++ [233%N] ++ lit "xico para  Compiladores."
    ++ [newline; newline; newline; newline]
    ++ lit "Uso:" ++ [newline]
    ++ lit "  python " ++ [34%N] ++ lit "lexer,0,0.py" ++ [34%N] ++ [newline].

(** The list [lines] of [format_tokens] when it is joined. *)
Definition format_lines (tokens : list Token) : list str :=
  let lines := [] in
  let header :=
    ljust (lit "TYPE") 12 ++ lit " " ++ ljust (lit "LEXEME") 10 ++ lit " "
      ++ ljust (lit "LINE") 5 ++ lit " " ++ ljust (lit "COL") 5 in
  let lines := lines ++ [header] in
  let lines := lines ++ [times (lit "-") (len header)] in
  fold_left
    (fun lines t =>
       lines ++ [ljust (lit (type t)) 12 ++ lit " " ++ ljust (lexeme t) 10
                   ++ lit " " ++ ljust (repr (line t)) 5 ++ lit " "
                   ++ ljust (repr (col t)) 5])
    tokens lines.

Definition format_tokens (tokens : list Token) : str :=
  join [newline] (format_lines tokens).

(** [main(argv)] for a list [argv]; called with [None] it takes
    [sys.argv[1:]] for [argv]. *)
Definition main (argv : list str) : list str * Outcome :=
  match argv with
  | _ :: _ =>
      if in_dec (list_eq_dec str_eq_dec) argv [[lit "-h"]; [lit "--help"]] then
        ([strip __doc__], Exit 0)
      else
        ([ lit "Este programa est" ++ [225%N]
             ++ lit " en modo demo y no acepta argumentos.";
           lit "Ejecuta: python " ++ [34%N] ++ lit "lexer,0,0.py" ++ [34%N] ],
         Exit 2)
  | [] =>
      let source := DEMO_SOURCE in
      match tokenize source with
      | None => ([], Diverges)
      | Some (Raised (ValueError bad_char line col)) =>
          ([error_message bad_char line col], Exit 1)
      | Some (Raised (RuntimeError _)) => ([], Uncaught)
      | Some (Return tokens) =>
          ([ lit "=== C" ++ [243%N] ++ lit "digo fuente (demo) ===";
             source;
             [newline] ++ lit "=== Tokens ===";
             format_tokens tokens ],
           Exit 0)
      end
  end.

End Demo.

(** * Specification vocabulary *)

(** [lexeme] is a maximal non-empty run of the class in front of [rest]. *)
Definition run_of (cls : char -> bool) (lexeme rest : str) : Prop :=
  lexeme <> [] /\ Forall (fun c => cls c = true) lexeme
  /\ match rest with [] => True | c :: _ => cls c = false end.

(** [lexeme] is one character of the class. *)
Definition one_of (cls : char -> bool) (lexeme : str) : Prop :=
  exists c, lexeme = [c] /\ cls c = true.

(** The text matched under each group name. *)
Definition matches_group (kind : string) (lexeme rest : str) : Prop :=
  (kind = "WHITESPACE" /\ run_of is_space lexeme rest)
  \/ (kind = "IDENTIFIER" /\ run_of is_lower lexeme rest)
  \/ (kind = "INTEGER" /\ run_of is_digit lexeme rest)
  \/ (kind = "OPERATOR" /\ one_of is_operator lexeme)
  \/ (kind = "DELIMITER" /\ one_of is_delimiter lexeme).

(** A character outside the five classes. *)
Definition unmatched (c : char) : Prop :=
  is_space c = false /\ is_lower c = false /\ is_digit c = false
  /\ is_operator c = false /\ is_delimiter c = false.

(** The category given to a non-whitespace match of group [kind]. *)
Definition token_type_of (kind : string) (lexeme : str) : string :=
  if (kind =? "IDENTIFIER")%string then
    if is_keyword lexeme then "KEYWORD" else "IDENTIFIER"
  else kind.

(** The tokens appended by the iteration that finds match [m] with the
    cursor at [line], [col]: none for whitespace, one otherwise. *)
Definition emitted (m : Match) (line col : Z) : list Token :=
  if (lastgroup m =? "WHITESPACE")%string then []
  else [mkToken (token_type_of (lastgroup m) (group m)) (group m) line col].

(** The loop states the scan of [text] goes through. *)
Inductive Reaches (text : str) : State -> Prop :=
| reaches_initial : Reaches text initial
| reaches_step (st st' : State) :
    Reaches text st ->
    st_pos st < len text ->
    loop_body text st = Continue st' ->
    Reaches text st'.

(** The whitespace characters the specification lists: space, tab, newline. *)
Definition is_blank (c : char) : bool := ((c =? 32) || (c =? 9) || (c =? 10))%N.

Definition carriage_return : char := 13%N.

(** A token whose lexeme has the shape of its category. *)
Definition conforms (t : Token) : Prop :=
  lexeme t <> []
  /\ ((type t = "KEYWORD" /\ In (lexeme t) keywords)
      \/ (type t = "IDENTIFIER"
          /\ Forall (fun c => (ord "a" <= c <= ord "z")%N) (lexeme t)
          /\ ~ In (lexeme t) keywords)
      \/ (type t = "INTEGER"
          /\ Forall (fun c => (ord "0" <= c <= ord "9")%N) (lexeme t))
      \/ (type t = "OPERATOR"
          /\ exists c, lexeme t = [c] /\ In c (lit "+-*/="))
      \/ (type t = "DELIMITER"
          /\ exists c, lexeme t = [c] /\ In c (lit "();"))).

(** Position [(l1, c1)] lies strictly before [(l2, c2)]. *)
Definition pos_lt (l1 c1 l2 c2 : Z) : Prop := l1 < l2 \/ (l1 = l2 /\ c1 < c2).

(** Token [t1] starts strictly before token [t2]. *)
Definition starts_before (t1 t2 : Token) : Prop :=
  pos_lt (line t1) (col t1) (line t2) (col t2).

(** The matches found by the successive iterations of the loop, in scan
    order.  The code keeps only the tokens built from them; this function
    follows the same cursor and keeps every match, whitespace included. *)
Fixpoint matches_loop (fuel : nat) (text : str) (st : State) : list Match :=
  if st_pos st <? len text then
    match fuel with
    | O => []
    | S fuel' =>
        match pattern_match master_pattern text (st_pos st), loop_body text st with
        | Some m, Continue st' => m :: matches_loop fuel' text st'
        | _, _ => []
        end
    end
  else [].

Definition matches (text : str) : list Match :=
  matches_loop (length text) text initial.

(** A match that gives a token: any but whitespace. *)
Definition emits (m : Match) : bool := negb (lastgroup m =? "WHITESPACE")%string.

(** The end offsets of consecutive spans laid out from [start]. *)
Fixpoint offsets (start : Z) (spans : list str) : list Z :=
  match spans with
  | [] => []
  | s :: spans' => (start + len s) :: offsets (start + len s) spans'
  end.

(** The scan of [rest] on its own, started at [line], [col]. *)
Definition lex (rest : str) (line col : Z) : option Result :=
  while_loop (length rest) rest (mkState 0 line col []).

(** [tokens] in front of the tokens of a result. *)
Definition prepend (tokens : list Token) (r : option Result) : option Result :=
  match r with
  | Some (Return tokens') => Some (Return (tokens ++ tokens'))
  | _ => r
  end.

(** [s[:pos]] for [0 <= pos] *)
Definition slice_to (s : str) (pos : Z) : str := firstn (Z.to_nat pos) s.

(** [_advance_position] and [lex] on a position given as a pair. *)
Definition advance (s : str) (p : Z * Z) : Z * Z :=
  _advance_position s (fst p) (snd p).

Definition lex_at (rest : str) (p : Z * Z) : option Result :=
  lex rest (fst p) (snd p).

(** Category and lexeme of a token, without its position. *)
Definition category_lexeme (t : Token) : string * str := (type t, lexeme t).

(** The last character of [a] and the first of [b] would fall into one
    token: both are lowercase letters, or both are digits. *)
Definition glued (a b : str) : Prop :=
  exists a' x y b',
    a = a' ++ [x] /\ b = y :: b'
    /\ ((is_lower x = true /\ is_lower y = true)
        \/ (is_digit x = true /\ is_digit y = true)).

(** Offset [p] of [text] lies in the gap the scan is at in state [st]: the
    cursor stands at [p], or the whitespace matched at the cursor covers
    [p].  Between two consecutive tokens these are the offsets from the end
    of the first to the start of the second, [st] being the state in which
    the first has just been appended. *)
Definition at_gap (text : str) (st : State) (p : Z) : Prop :=
  st_pos st = p
  \/ exists m,
      pattern_match master_pattern text (st_pos st) = Some m
      /\ lastgroup m = "WHITESPACE"
      /\ st_pos st <= p <= m_end m.

(** A character of one of the five classes of [master_pattern]. *)
Definition recognized (c : char) : bool :=
  is_space c || is_lower c || is_digit c || is_operator c || is_delimiter c.

(** The position [(line, col)], counted in a text starting at line 1,
    column 1, when that text is placed at position [origin] of a longer
    one: lines shift by the origin's line, and on the first line columns
    shift by the origin's column. *)
Definition relocate (origin : Z * Z) (line col : Z) : Z * Z :=
  (line + fst origin - 1, if line =? 1 then col + snd origin - 1 else col).

Definition relocate_token (origin : Z * Z) (t : Token) : Token :=
  mkToken (type t) (lexeme t)
    (fst (relocate origin (line t) (col t)))
    (snd (relocate origin (line t) (col t))).

Definition relocate_result (origin : Z * Z) (r : option Result) : option Result :=
  match r with
  | Some (Return tokens) => Some (Return (map (relocate_token origin) tokens))
  | Some (Raised (ValueError c line col)) =>
      Some (Raised (ValueError c (fst (relocate origin line col))
                      (snd (relocate origin line col))))
  | _ => r
  end.

(** Token [t1] ends before token [t2] starts: on an earlier line, or on the
    same line at or before its first column. *)
Definition ends_before (t1 t2 : Token) : Prop :=
  line t1 < line t2
  \/ (line t1 = line t2 /\ col t1 + len (lexeme t1) <= col t2).

(** A token that fits the table: no newline in its lexeme or in the name of
    its category, and a category name of at most 12 characters. *)
Definition plain (t : Token) : Prop :=
  count (lexeme t) newline = 0
  /\ count (lit (type t)) newline = 0
  /\ len (lit (type t)) <= 12.


(** * Properties *)

(** ** Strings *)

Lemma len_nil : len [] = 0.
Proof. reflexivity. Qed.

Lemma len_cons (c : char) (s : str) : len (c :: s) = 1 + len s.
Proof. unfold len. cbn [length]. lia. Qed.

Lemma len_app (a b : str) : len (a ++ b) = len a + len b.
Proof. unfold len. rewrite length_app. lia. Qed.

Lemma len_nonneg (s : str) : 0 <= len s.
Proof. unfold len. lia. Qed.

Lemma len_pos (s : str) : s <> [] -> 0 < len s.
Proof. destruct s; [congruence | rewrite len_cons; pose proof (len_nonneg s); lia]. Qed.

Lemma count_nonneg (s : str) (ch : char) : 0 <= count s ch.
Proof. induction s as [|c s IH]; cbn [count]; [lia | destruct (N.eqb c ch); lia]. Qed.

Lemma count_app (a b : str) (ch : char) : count (a ++ b) ch = count a ch + count b ch.
Proof. induction a as [|c a IH]; cbn [count app]; [lia | rewrite IH; lia]. Qed.

Lemma rfind_range (s : str) (ch : char) : -1 <= rfind s ch < len s.
Proof.
  induction s as [|c s IH]; cbn [rfind].
  - rewrite len_nil. lia.
  - rewrite len_cons. destruct (0 <=? rfind s ch) eqn:E.
    + lia.
    + destruct (N.eqb c ch); pose proof (len_nonneg s); lia.
Qed.

Lemma rfind_absent (s : str) (ch : char) : count s ch = 0 -> rfind s ch = -1.
Proof.
  induction s as [|c s IH]; cbn [rfind count]; [reflexivity|].
  pose proof (count_nonneg s ch). destruct (N.eqb c ch); [lia|].
  intros H0. rewrite IH by lia. reflexivity.
Qed.

Lemma rfind_present (s : str) (ch : char) : 0 < count s ch -> 0 <= rfind s ch.
Proof.
  induction s as [|c s IH]; cbn [rfind count]; [lia|].
  destruct (0 <=? rfind s ch) eqn:E; [lia|].
  destruct (N.eqb c ch); [lia|]. intros H0. apply Z.leb_gt in E. lia.
Qed.

Lemma rfind_app (a b : str) (ch : char) :
  rfind (a ++ b) ch = if 0 <=? rfind b ch then len a + rfind b ch else rfind a ch.
Proof.
  induction a as [|c a IH]; cbn [rfind app].
  - rewrite len_nil. pose proof (rfind_range b ch).
    destruct (0 <=? rfind b ch) eqn:E; [lia | apply Z.leb_gt in E; lia].
  - rewrite IH, len_cons. pose proof (rfind_range a ch). pose proof (len_nonneg a).
    destruct (0 <=? rfind b ch) eqn:E.
    + apply Z.leb_le in E.
      destruct (0 <=? len a + rfind b ch) eqn:E'; [lia | apply Z.leb_gt in E'; lia].
    + reflexivity.
Qed.

Lemma rfind_last (pre post : str) (ch : char) :
  count post ch = 0 -> rfind (pre ++ ch :: post) ch = len pre.
Proof.
  intros H0. rewrite rfind_app. cbn [rfind]. rewrite (rfind_absent post ch H0).
  cbn. rewrite N.eqb_refl. cbn. lia.
Qed.

(** Every string with an occurrence of [ch] splits at the last one. *)
Lemma split_last (s : str) (ch : char) :
  0 < count s ch -> exists pre post, s = pre ++ ch :: post /\ count post ch = 0.
Proof.
  induction s as [|c s IH]; cbn [count]; [lia|].
  intros H0. destruct (Z.eq_dec (count s ch) 0) as [Hz|Hz].
  - destruct (N.eqb c ch) eqn:E; [|lia]. apply N.eqb_eq in E. subst c.
    exists [], s. split; [reflexivity | exact Hz].
  - pose proof (count_nonneg s ch).
    destruct IH as (pre & post & -> & Hp); [lia|].
    exists (c :: pre), post. split; [reflexivity | exact Hp].
Qed.

(** ** [_advance_position] *)

(** Advancing over [a ++ b] is advancing over [a], then over [b]. *)
Lemma advance_app (a b : str) (line col : Z) :
  _advance_position (a ++ b) line col =
  let '(line', col') := _advance_position a line col in
  _advance_position b line' col'.
Proof.
  unfold _advance_position. rewrite count_app, rfind_app, len_app.
  pose proof (count_nonneg a newline) as Ha. pose proof (count_nonneg b newline) as Hb.
  destruct (Z.eqb_spec (count a newline) 0) as [Ea|Ea];
    destruct (Z.eqb_spec (count b newline) 0) as [Eb|Eb].
  - rewrite Ea, Eb. change (0 + 0 =? 0) with true. cbv iota. f_equal. lia.
  - rewrite Ea, Z.add_0_l. destruct (Z.eqb_spec (count b newline) 0); [lia|].
    pose proof (rfind_present b newline) as Hr.
    destruct (Z.leb_spec 0 (rfind b newline)); [|lia]. f_equal. lia.
  - rewrite Eb, (rfind_absent b newline Eb). cbn [Z.leb Z.compare].
    destruct (Z.eqb_spec (count a newline + 0) 0); [lia|]. f_equal; lia.
  - destruct (Z.eqb_spec (count a newline + count b newline) 0); [lia|].
    pose proof (rfind_present b newline) as Hr.
    destruct (Z.leb_spec 0 (rfind b newline)); [|lia]. f_equal; lia.
Qed.

Lemma advance_nil (line col : Z) : _advance_position [] line col = (line, col).
Proof. unfold _advance_position. cbn. f_equal. lia. Qed.

(** The position strictly increases, lexicographically, over a non-empty
    lexeme, and the line never decreases. *)
Lemma advance_increases (lexeme : str) (line col line' col' : Z) :
  lexeme <> [] ->
  _advance_position lexeme line col = (line', col') ->
  line < line' \/ (line = line' /\ col < col').
Proof.
  intros Hne. unfold _advance_position.
  pose proof (count_nonneg lexeme newline). pose proof (len_pos lexeme Hne).
  destruct (Z.eqb_spec (count lexeme newline) 0);
    intros E; apply pair_equal_spec in E; destruct E as [<- <-]; lia.
Qed.

Lemma advance_col_positive (lexeme : str) (line col line' col' : Z) :
  0 < col ->
  _advance_position lexeme line col = (line', col') ->
  0 < col'.
Proof.
  intros Hc. unfold _advance_position.
  pose proof (rfind_range lexeme newline). pose proof (len_nonneg lexeme).
  destruct (Z.eqb_spec (count lexeme newline) 0);
    intros E; apply pair_equal_spec in E; destruct E as [<- <-]; lia.
Qed.

(** ** The master pattern *)

Lemma span_all (cls : char -> bool) (s : str) :
  Forall (fun c => cls c = true) (span cls s).
Proof.
  induction s as [|c s IH]; cbn [span]; [constructor|].
  destruct (cls c) eqn:E; constructor; assumption.
Qed.

(** [span] splits the string, and the rest does not start inside the class. *)
Lemma span_split (cls : char -> bool) (s : str) :
  exists rest, s = span cls s ++ rest /\
               match rest with [] => True | c :: _ => cls c = false end.
Proof.
  induction s as [|c s (rest & IH & Hmax)]; cbn [span].
  - exists []. split; [reflexivity | exact I].
  - destruct (cls c) eqn:E.
    + exists rest. split; [cbn [app]; congruence | exact Hmax].
    + exists (c :: s). split; [reflexivity | exact E].
Qed.

Lemma span_app (cls : char -> bool) (a b : str) :
  Forall (fun c => cls c = true) a -> span cls (a ++ b) = a ++ span cls b.
Proof.
  induction 1 as [|c a Hc _ IH]; cbn [span app]; [reflexivity|].
  rewrite Hc, IH. reflexivity.
Qed.

Lemma span_stop (cls : char -> bool) (s : str) :
  match s with [] => True | c :: _ => cls c = false end -> span cls s = [].
Proof. destruct s as [|c s]; cbn [span]; [reflexivity | intros ->; reflexivity]. Qed.

(** Turns the boolean class tests into linear arithmetic over code points. *)
Ltac class_arith :=
  unfold is_space, is_lower, is_digit, is_operator, is_delimiter in *;
  rewrite ?orb_true_iff, ?orb_false_iff, ?andb_true_iff, ?andb_false_iff,
    ?N.leb_le, ?N.leb_gt, ?N.eqb_eq, ?N.eqb_neq in *;
  lia.

Lemma lower_not_space (c : char) : is_lower c = true -> is_space c = false.
Proof. class_arith. Qed.

Lemma space_not_lower (c : char) : is_space c = true -> is_lower c = false.
Proof. class_arith. Qed.

Lemma space_not_digit (c : char) : is_space c = true -> is_digit c = false.
Proof. class_arith. Qed.

(** What [master_pattern] matches at the head of a string: the first class,
    in the order of the alternatives, that contains the first character. *)
Lemma match_master (s : str) (pos : Z) :
  match_alternatives master_pattern s pos =
  match s with
  | [] => None
  | c :: s' =>
      if is_space c then
        Some (mkMatch "WHITESPACE" (span is_space s) (pos + len (span is_space s)))
      else if is_lower c then
        Some (mkMatch "IDENTIFIER" (span is_lower s) (pos + len (span is_lower s)))
      else if is_digit c then
        Some (mkMatch "INTEGER" (span is_digit s) (pos + len (span is_digit s)))
      else if is_operator c then Some (mkMatch "OPERATOR" [c] (pos + len [c]))
      else if is_delimiter c then Some (mkMatch "DELIMITER" [c] (pos + len [c]))
      else None
  end.
Proof.
  destruct s as [|c s]; [reflexivity|].
  unfold master_pattern. cbn [match_alternatives match_group span].
  destruct (is_space c); [reflexivity|].
  destruct (is_lower c); [reflexivity|].
  destruct (is_digit c); [reflexivity|].
  destruct (is_operator c); [reflexivity|].
  destruct (is_delimiter c); reflexivity.
Qed.


Lemma span_run_of (cls : char -> bool) (c : char) (s : str) :
  cls c = true ->
  exists rest, c :: s = span cls (c :: s) ++ rest /\ run_of cls (span cls (c :: s)) rest.
Proof.
  intros Hc. destruct (span_split cls (c :: s)) as (rest & Hs & Hmax).
  exists rest. split; [exact Hs|]. split; [|split].
  - cbn [span]. rewrite Hc. discriminate.
  - apply span_all.
  - exact Hmax.
Qed.

Lemma match_some (s : str) (pos : Z) (m : Match) :
  match_alternatives master_pattern s pos = Some m ->
  exists rest, s = group m ++ rest /\ group m <> []
               /\ m_end m = pos + len (group m)
               /\ matches_group (lastgroup m) (group m) rest.
Proof.
  rewrite match_master. destruct s as [|c s]; [discriminate|].
  unfold matches_group.
  destruct (is_space c) eqn:E1.
  { intros [= <-]. cbn [group lastgroup m_end].
    destruct (span_run_of is_space c s E1) as (rest & Hs & Hr).
    exists rest. pose proof Hr as (? & _). auto 10. }
  destruct (is_lower c) eqn:E2.
  { intros [= <-]. cbn [group lastgroup m_end].
    destruct (span_run_of is_lower c s E2) as (rest & Hs & Hr).
    exists rest. pose proof Hr as (? & _). auto 10. }
  destruct (is_digit c) eqn:E3.
  { intros [= <-]. cbn [group lastgroup m_end].
    destruct (span_run_of is_digit c s E3) as (rest & Hs & Hr).
    exists rest. pose proof Hr as (? & _). auto 10. }
  destruct (is_operator c) eqn:E4.
  { intros [= <-]. cbn [group lastgroup m_end]. exists s.
    repeat split; try discriminate. do 3 right. left. split; [reflexivity|].
    exists c. auto. }
  destruct (is_delimiter c) eqn:E5; [|discriminate].
  intros [= <-]. cbn [group lastgroup m_end]. exists s.
  repeat split; try discriminate. do 4 right. split; [reflexivity|].
  exists c. auto.
Qed.

(** No alternative matches exactly when the string is empty or starts with
    a character outside the five classes. *)
Lemma match_none (s : str) (pos : Z) :
  match_alternatives master_pattern s pos = None <->
  match s with [] => True | c :: _ => unmatched c end.
Proof.
  rewrite match_master. destruct s as [|c s]; [tauto|]. unfold unmatched.
  destruct (is_space c), (is_lower c), (is_digit c), (is_operator c),
    (is_delimiter c); split; intros H; try discriminate; try tauto;
    repeat match goal with H : _ /\ _ |- _ => destruct H end; discriminate.
Qed.

(** The matched text does not depend on the position it is found at. *)
Lemma match_pos (s : str) (pos pos' : Z) :
  match_alternatives master_pattern s pos' =
  match match_alternatives master_pattern s pos with
  | Some m => Some (mkMatch (lastgroup m) (group m) (pos' + len (group m)))
  | None => None
  end.
Proof.
  rewrite !match_master. destruct s as [|c s]; [reflexivity|].
  destruct (is_space c); [reflexivity|].
  destruct (is_lower c); [reflexivity|].
  destruct (is_digit c); [reflexivity|].
  destruct (is_operator c); [reflexivity|].
  destruct (is_delimiter c); reflexivity.
Qed.

(** ** Slices *)

Lemma slice_from_0 (s : str) : slice_from s 0 = s.
Proof. reflexivity. Qed.

Lemma len_slice_from (s : str) (pos : Z) :
  0 <= pos <= len s -> len (slice_from s pos) = len s - pos.
Proof. unfold len, slice_from. intros H. rewrite length_skipn. lia. Qed.

Lemma slice_from_nil (s : str) (pos : Z) : len s <= pos -> slice_from s pos = [].
Proof. unfold len, slice_from. intros H. apply skipn_all2. lia. Qed.

Lemma slice_from_cons (s : str) (pos : Z) :
  0 <= pos < len s ->
  exists c rest, slice_from s pos = c :: rest /\ index s pos = c.
Proof.
  unfold len, slice_from, index. intros H.
  assert (Hlt : (Z.to_nat pos < length s)%nat) by lia.
  revert Hlt. generalize (Z.to_nat pos). clear H.
  induction s as [|c s IH]; intros n Hn; cbn [length] in Hn; [lia|].
  destruct n as [|n]; cbn [skipn nth].
  - eauto.
  - apply IH. lia.
Qed.

Lemma slice_from_add (s : str) (pos k : Z) :
  0 <= pos -> 0 <= k -> slice_from s (pos + k) = slice_from (slice_from s pos) k.
Proof.
  unfold slice_from. intros Hp Hk. rewrite skipn_skipn. f_equal. lia.
Qed.

Lemma slice_from_app (a b : str) : slice_from (a ++ b) (len a) = b.
Proof.
  unfold slice_from, len. rewrite Nat2Z.id. rewrite skipn_app, skipn_all, Nat.sub_diag.
  reflexivity.
Qed.

(** After a match, the cursor stands in front of the unmatched rest. *)
Lemma slice_from_end (s lexeme rest : str) (pos : Z) :
  0 <= pos -> slice_from s pos = lexeme ++ rest ->
  slice_from s (pos + len lexeme) = rest.
Proof.
  intros Hp Hs. rewrite slice_from_add by (auto using len_nonneg).
  rewrite Hs. apply slice_from_app.
Qed.

(** ** One iteration *)

Lemma loop_body_none (text : str) (st : State) :
  pattern_match master_pattern text (st_pos st) = None ->
  loop_body text st = Raise (ValueError (index text (st_pos st)) (st_line st) (st_col st)).
Proof. unfold loop_body. intros ->. reflexivity. Qed.

Lemma loop_body_some (text : str) (st : State) (m : Match) :
  pattern_match master_pattern text (st_pos st) = Some m ->
  loop_body text st =
  Continue (mkState (m_end m)
              (fst (_advance_position (group m) (st_line st) (st_col st)))
              (snd (_advance_position (group m) (st_line st) (st_col st)))
              (st_tokens st ++ emitted m (st_line st) (st_col st))).
Proof.
  unfold loop_body. intros Hm. rewrite Hm.
  apply match_some in Hm. destruct Hm as (rest & _ & _ & _ & Hg).
  destruct (_advance_position (group m) (st_line st) (st_col st)) as [line' col'].
  cbn [fst snd]. unfold emitted, token_type_of.
  destruct Hg as [[-> _]|[[-> _]|[[-> _]|[[-> _]|[-> _]]]]]; cbn [String.eqb Ascii.eqb Bool.eqb];
    cbv iota; rewrite ?app_nil_r; reflexivity.
Qed.

(** An iteration entered under the loop guard either raises the
    [ValueError] for the character at the cursor, which is outside every
    class, or consumes a non-empty match and continues behind it. *)
Lemma loop_body_cases (text : str) (st : State) :
  0 <= st_pos st < len text ->
  (unmatched (index text (st_pos st))
   /\ pattern_match master_pattern text (st_pos st) = None
   /\ loop_body text st =
      Raise (ValueError (index text (st_pos st)) (st_line st) (st_col st)))
  \/ (exists m rest,
        pattern_match master_pattern text (st_pos st) = Some m
        /\ slice_from text (st_pos st) = group m ++ rest
        /\ slice_from text (m_end m) = rest
        /\ group m <> []
        /\ m_end m = st_pos st + len (group m)
        /\ matches_group (lastgroup m) (group m) rest
        /\ loop_body text st =
           Continue (mkState (m_end m)
                       (fst (_advance_position (group m) (st_line st) (st_col st)))
                       (snd (_advance_position (group m) (st_line st) (st_col st)))
                       (st_tokens st ++ emitted m (st_line st) (st_col st)))).
Proof.
  intros Hpos. destruct (slice_from_cons text (st_pos st) Hpos) as (c & s & Hs & Hc).
  destruct (pattern_match master_pattern text (st_pos st)) as [m|] eqn:Hm.
  - right. pose proof (loop_body_some text st m Hm) as Hb.
    unfold pattern_match in Hm. apply match_some in Hm.
    destruct Hm as (rest & Hr & Hne & He & Hg). exists m, rest.
    repeat split; try assumption.
    rewrite He. apply slice_from_end; [lia | exact Hr].
  - left. pose proof (loop_body_none text st Hm) as Hb.
    unfold pattern_match in Hm. apply match_none in Hm. rewrite Hs in Hm.
    rewrite Hc. rewrite Hc in Hb. auto.
Qed.

(** The cursor moves forward and stays inside the text. *)
Lemma loop_body_pos (text : str) (st st' : State) :
  0 <= st_pos st < len text ->
  loop_body text st = Continue st' ->
  st_pos st < st_pos st' <= len text.
Proof.
  intros Hpos Hb.
  destruct (loop_body_cases text st Hpos) as [(_ & _ & Hr)|(m & rest & _ & Hs & _ & Hne & He & _ & Hc)];
    [congruence|].
  rewrite Hc in Hb. injection Hb as <-. cbn [st_pos].
  apply len_pos in Hne. split; [lia|].
  assert (Hl : len (slice_from text (st_pos st)) = len (group m) + len rest)
    by (rewrite Hs; apply len_app).
  rewrite len_slice_from in Hl by lia. pose proof (len_nonneg rest). lia.
Qed.

Lemma reaches_pos (text : str) (st : State) :
  Reaches text st -> 0 <= st_pos st <= len text.
Proof.
  induction 1 as [|st st' _ IH Hlt Hb].
  - cbn. pose proof (len_nonneg text). lia.
  - pose proof (loop_body_pos text st st' ltac:(lia) Hb). lia.
Qed.

(** ** The loop *)

Lemma while_loop_exit (fuel : nat) (text : str) (st : State) :
  len text <= st_pos st -> while_loop fuel text st = Some (Return (st_tokens st)).
Proof.
  intros H. destruct fuel; cbn [while_loop];
    destruct (Z.ltb_spec (st_pos st) (len text)); (lia || reflexivity).
Qed.

Lemma while_loop_step (fuel : nat) (text : str) (st : State) :
  st_pos st < len text ->
  while_loop (S fuel) text st =
  match loop_body text st with
  | Raise e => Some (Raised e)
  | Continue st' => while_loop fuel text st'
  end.
Proof.
  intros H. cbn [while_loop].
  destruct (Z.ltb_spec (st_pos st) (len text)); (lia || reflexivity).
Qed.

(** Any two sufficient amounts of fuel give the same result. *)
Lemma while_loop_fuel (text : str) (f1 f2 : nat) (st : State) :
  0 <= st_pos st ->
  len text - st_pos st <= Z.of_nat f1 ->
  len text - st_pos st <= Z.of_nat f2 ->
  while_loop f1 text st = while_loop f2 text st.
Proof.
  revert f2 st. induction f1 as [|f1 IH]; intros f2 st H0 H1 H2.
  - rewrite !while_loop_exit by lia. reflexivity.
  - destruct (Z.ltb_spec (st_pos st) (len text)) as [Hlt|Hge].
    + destruct f2 as [|f2]; [lia|]. rewrite !while_loop_step by exact Hlt.
      destruct (loop_body text st) as [st'|e] eqn:Hb; [|reflexivity].
      pose proof (loop_body_pos text st st' ltac:(lia) Hb). apply IH; lia.
    + rewrite !while_loop_exit by lia. reflexivity.
Qed.

(** With [len(text) - pos] units of fuel the loop comes to an end. *)
Lemma while_loop_total (text : str) (fuel : nat) (st : State) :
  0 <= st_pos st ->
  len text - st_pos st <= Z.of_nat fuel ->
  exists r, while_loop fuel text st = Some r.
Proof.
  revert st. induction fuel as [|fuel IH]; intros st H0 H1.
  - rewrite while_loop_exit by lia. eauto.
  - destruct (Z.ltb_spec (st_pos st) (len text)) as [Hlt|Hge].
    + rewrite while_loop_step by exact Hlt.
      destruct (loop_body text st) as [st'|e] eqn:Hb; [|eauto].
      pose proof (loop_body_pos text st st' ltac:(lia) Hb). apply IH; lia.
    + rewrite while_loop_exit by lia. eauto.
Qed.

Lemma tokenize_total (text : str) : exists r, tokenize text = Some r.
Proof. apply while_loop_total; cbn [initial st_pos]; unfold len; lia. Qed.

(** From a state the scan reaches, the loop gives the result of [tokenize]. *)
Lemma reaches_tokenize (text : str) (st : State) :
  Reaches text st ->
  forall fuel, len text - st_pos st <= Z.of_nat fuel ->
               while_loop fuel text st = tokenize text.
Proof.
  induction 1 as [|st st' Hr IH Hlt Hb]; intros fuel Hf.
  - apply while_loop_fuel; cbn [initial st_pos] in *; unfold len in *; lia.
  - pose proof (reaches_pos text st Hr).
    pose proof (loop_body_pos text st st' ltac:(lia) Hb).
    rewrite (while_loop_fuel text fuel (length text) st') by (unfold len in *; lia).
    rewrite <- (IH (S (length text))) by (unfold len in *; lia).
    rewrite while_loop_step by exact Hlt. rewrite Hb. reflexivity.
Qed.

(** The result of the loop is decided at a state the scan reaches: either
    the cursor is at the end and the tokens are returned, or no alternative
    matches at the cursor and the [ValueError] is raised there. *)
Lemma while_loop_result (text : str) (fuel : nat) (st : State) (r : Result) :
  Reaches text st ->
  while_loop fuel text st = Some r ->
  exists st',
    Reaches text st'
    /\ ((len text <= st_pos st' /\ r = Return (st_tokens st'))
        \/ (st_pos st' < len text
            /\ pattern_match master_pattern text (st_pos st') = None
            /\ r = Raised (ValueError (index text (st_pos st'))
                             (st_line st') (st_col st')))).
Proof.
  revert st. induction fuel as [|fuel IH]; intros st Hr Hw.
  - cbn [while_loop] in Hw. destruct (Z.ltb_spec (st_pos st) (len text)); [discriminate|].
    injection Hw as <-. exists st. auto.
  - destruct (Z.ltb_spec (st_pos st) (len text)) as [Hlt|Hge].
    + rewrite while_loop_step in Hw by exact Hlt.
      pose proof (reaches_pos text st Hr) as Hp.
      destruct (loop_body_cases text st ltac:(lia)) as [(_ & Hn & Hb)|(m & rest & _ & _ & _ & _ & _ & _ & Hb)].
      * rewrite Hb in Hw. injection Hw as <-. exists st. auto.
      * rewrite Hb in Hw. apply IH in Hw; [exact Hw|].
        eapply reaches_step; eassumption.
    + rewrite while_loop_exit in Hw by lia. injection Hw as <-. exists st. auto.
Qed.

(** Line and column stay 1-based along the scan. *)
Lemma reaches_one_based (text : str) (st : State) :
  Reaches text st -> 1 <= st_line st /\ 1 <= st_col st.
Proof.
  induction 1 as [|st st' Hr IH Hlt Hb]; [cbn; lia|].
  pose proof (reaches_pos text st Hr) as Hp.
  destruct (loop_body_cases text st ltac:(lia))
    as [(_ & _ & Hc)|(m & rest & _ & _ & _ & Hne & _ & _ & Hc)]; [congruence|].
  rewrite Hc in Hb. injection Hb as <-. cbn [st_line st_col].
  destruct (_advance_position (group m) (st_line st) (st_col st)) as [l' c'] eqn:Ea.
  cbn [fst snd]. pose proof (advance_increases _ _ _ _ _ Hne Ea).
  assert (0 < st_col st) as Hcol by lia.
  pose proof (advance_col_positive _ _ _ _ _ Hcol Ea). lia.
Qed.

(** The rule of [_advance_position]. *)
Lemma advance_rule (lexeme : str) (line col : Z) :
  let k := count lexeme newline in
  (k = 0 -> _advance_position lexeme line col = (line, col + len lexeme))
  /\ (1 <= k ->
      exists pre post,
        lexeme = pre ++ newline :: post /\ count post newline = 0
        /\ _advance_position lexeme line col = (line + k, 1 + len post)).
Proof.
  cbv zeta. split; intros Hk.
  - unfold _advance_position. rewrite Hk. reflexivity.
  - destruct (split_last lexeme newline ltac:(lia)) as (pre & post & -> & Hp).
    exists pre, post. split; [reflexivity|]. split; [exact Hp|].
    unfold _advance_position.
    destruct (Z.eqb_spec (count (pre ++ newline :: post) newline) 0); [lia|].
    rewrite rfind_last by exact Hp. rewrite len_app, len_cons. f_equal. lia.
Qed.

(** * The claims *)

(** C1. On ["if (x = 10) x = x + 1;"] [tokenize] returns twelve tokens, each
    with the 1-based line and column of its first character: Keyword "if"
    at 1,1; Delimiter "(" at 1,4; Identifier "x" at 1,5; Operator "=" at
    1,7; Integer "10" at 1,9; Delimiter ")" at 1,11; Identifier "x" at 1,13;
    Operator "=" at 1,15; Identifier "x" at 1,17; Operator "+" at 1,19;
    Integer "1" at 1,21; Delimiter ";" at 1,22. *)
Theorem C1_demo_tokens :
  tokenize (lit "if (x = 10) x = x + 1;") =
  Some (Return
          [ mkToken "KEYWORD" (lit "if") 1 1;
            mkToken "DELIMITER" (lit "(") 1 4;
            mkToken "IDENTIFIER" (lit "x") 1 5;
            mkToken "OPERATOR" (lit "=") 1 7;
            mkToken "INTEGER" (lit "10") 1 9;
            mkToken "DELIMITER" (lit ")") 1 11;
            mkToken "IDENTIFIER" (lit "x") 1 13;
            mkToken "OPERATOR" (lit "=") 1 15;
            mkToken "IDENTIFIER" (lit "x") 1 17;
            mkToken "OPERATOR" (lit "+") 1 19;
            mkToken "INTEGER" (lit "1") 1 21;
            mkToken "DELIMITER" (lit ";") 1 22 ]).
Proof. vm_compute. reflexivity. Qed.

(** C2. Every iteration that finds a match, whitespace or not, moves line
    and column by the same rule.  With [k] the number of newline characters
    of the matched text: if [k = 0] the line is unchanged and the column
    grows by the length of the match; if [k >= 1] the line grows by [k] and
    the column becomes 1 plus the number of characters after the last
    newline of the match.  In particular "x", newline, two spaces, "y"
    gives Identifier "x" at 1,1 and Identifier "y" at 2,3. *)
Theorem C2_position_advancement :
  (forall (text : str) (st : State) (m : Match),
      pattern_match master_pattern text (st_pos st) = Some m ->
      exists st',
        loop_body text st = Continue st'
        /\ (count (group m) newline = 0 ->
            st_line st' = st_line st
            /\ st_col st' = st_col st + len (group m))
        /\ (1 <= count (group m) newline ->
            st_line st' = st_line st + count (group m) newline
            /\ exists pre post,
                group m = pre ++ newline :: post
                /\ count post newline = 0
                /\ st_col st' = 1 + len post))
  /\ tokenize (lit "x" ++ [newline] ++ lit "  y") =
     Some (Return [ mkToken "IDENTIFIER" (lit "x") 1 1;
                    mkToken "IDENTIFIER" (lit "y") 2 3 ]).
Proof.
  split; [|vm_compute; reflexivity].
  intros text st m Hm. rewrite (loop_body_some text st m Hm).
  eexists. split; [reflexivity|]. cbn [st_line st_col].
  destruct (advance_rule (group m) (st_line st) (st_col st)) as [H0 H1].
  split; intros Hk.
  - rewrite (H0 Hk). cbn [fst snd]. auto.
  - destruct (H1 Hk) as (pre & post & Hg & Hp & ->). cbn [fst snd].
    split; [reflexivity|]. exists pre, post. auto.
Qed.

(** The whitespace between "x" and "y" above is one newline followed by two
    spaces; the iteration that skips it starts at 1,2. *)
Lemma C2_witness :
  let text := lit "x" ++ [newline] ++ lit "  y" in
  let st := mkState 1 1 2 [mkToken "IDENTIFIER" (lit "x") 1 1] in
  let ws := [newline] ++ lit "  " in
  pattern_match master_pattern text (st_pos st) = Some (mkMatch "WHITESPACE" ws 4)
  /\ exists st',
      loop_body text st = Continue st'
      /\ (count ws newline = 0 ->
          st_line st' = st_line st /\ st_col st' = st_col st + len ws)
      /\ (1 <= count ws newline ->
          st_line st' = st_line st + count ws newline
          /\ exists pre post,
              ws = pre ++ newline :: post
              /\ count post newline = 0
              /\ st_col st' = 1 + len post).
Proof.
  split; [reflexivity|].
  exact (proj1 C2_position_advancement
           (lit "x" ++ [newline] ++ lit "  y")
           (mkState 1 1 2 [mkToken "IDENTIFIER" (lit "x") 1 1])
           (mkMatch "WHITESPACE" ([newline] ++ lit "  ") 4)
           eq_refl).
Defined.

(** C3. [tokenize] raises its error exactly when the scan reaches a cursor
    position, inside the text, at which no alternative of the pattern
    matches; the error then carries the character at the cursor and the
    current line and column, both at least 1, and no token is returned with
    it.  A call always ends, in tokens or in that error.  "x = A;" fails
    with 'A' at line 1, column 5, and the empty text gives no token and no
    error. *)
Theorem C3_lexical_error :
  (forall (text : str) (e : Error),
      tokenize text = Some (Raised e) <->
      exists st,
        Reaches text st
        /\ st_pos st < len text
        /\ pattern_match master_pattern text (st_pos st) = None
        /\ 1 <= st_line st /\ 1 <= st_col st
        /\ e = ValueError (index text (st_pos st)) (st_line st) (st_col st))
  /\ (forall text : str,
         (exists tokens, tokenize text = Some (Return tokens))
         \/ (exists e, tokenize text = Some (Raised e)))
  /\ tokenize (lit "x = A;") = Some (Raised (ValueError (ord "A") 1 5))
  /\ tokenize (lit "") = Some (Return []).
Proof.
  split; [|split; [|split; vm_compute; reflexivity]].
  - intros text e. split.
    + intros Ht. unfold tokenize in Ht.
      destruct (while_loop_result text _ _ _ (reaches_initial text) Ht)
        as (st & Hr & [[_ He]|(Hlt & Hn & He)]); [discriminate|].
      injection He as ->. exists st. pose proof (reaches_one_based text st Hr).
      tauto.
    + intros (st & Hr & Hlt & Hn & _ & _ & ->).
      rewrite <- (reaches_tokenize text st Hr (S (length text)))
        by (pose proof (reaches_pos text st Hr); unfold len in *; lia).
      rewrite while_loop_step by exact Hlt.
      rewrite (loop_body_none text st Hn). reflexivity.
  - intros text. destruct (tokenize_total text) as ([tokens|e] & Hr); eauto.
Qed.

(** The state in which the scan of "x = A;" meets 'A'. *)
Lemma C3_witness :
  let text := lit "x = A;" in
  let st := mkState 4 1 5 [mkToken "IDENTIFIER" (lit "x") 1 1;
                           mkToken "OPERATOR" (lit "=") 1 3] in
  Reaches text st
  /\ pattern_match master_pattern text (st_pos st) = None
  /\ tokenize text = Some (Raised (ValueError (ord "A") 1 5)).
Proof.
  assert (Hr : Reaches (lit "x = A;")
                 (mkState 4 1 5 [mkToken "IDENTIFIER" (lit "x") 1 1;
                                 mkToken "OPERATOR" (lit "=") 1 3])).
  { apply (reaches_step _ (mkState 3 1 4 [mkToken "IDENTIFIER" (lit "x") 1 1;
                                         mkToken "OPERATOR" (lit "=") 1 3]));
      [|reflexivity|reflexivity].
    apply (reaches_step _ (mkState 2 1 3 [mkToken "IDENTIFIER" (lit "x") 1 1]));
      [|reflexivity|reflexivity].
    apply (reaches_step _ (mkState 1 1 2 [mkToken "IDENTIFIER" (lit "x") 1 1]));
      [|reflexivity|reflexivity].
    apply (reaches_step _ initial); [|reflexivity|reflexivity].
    apply reaches_initial. }
  split; [exact Hr|]. split; [reflexivity|].
  apply (proj2 (proj1 C3_lexical_error (lit "x = A;") _)).
  eexists. split; [exact Hr|]. cbn [st_pos st_line st_col].
  repeat split; (reflexivity || lia).
Defined.

(** C4, as the code has it.  The whitespace group matches exactly the
    maximal non-empty runs of the characters of [\s], which are space, tab,
    newline and others besides, carriage return among them.  A character
    outside the five classes, with whitespace so understood, is fatal
    wherever the cursor reaches it: [tokenize] raises the error for that
    character at the cursor's line and column and does not consume it. *)
Theorem C4_whitespace_class_and_fatal_characters :
  (forall (text : str) (pos : Z) (m : Match),
      pattern_match master_pattern text pos = Some m ->
      lastgroup m = "WHITESPACE" ->
      exists rest,
        slice_from text pos = group m ++ rest
        /\ run_of is_space (group m) rest)
  /\ (forall (text : str) (pos : Z) (c : char) (rest : str),
         slice_from text pos = c :: rest ->
         is_space c = true ->
         exists m, pattern_match master_pattern text pos = Some m
                   /\ lastgroup m = "WHITESPACE")
  /\ (forall c : char, is_blank c = true -> is_space c = true)
  /\ is_space carriage_return = true
  /\ (forall (text : str) (st : State),
         Reaches text st ->
         st_pos st < len text ->
         unmatched (index text (st_pos st)) ->
         tokenize text =
         Some (Raised (ValueError (index text (st_pos st))
                         (st_line st) (st_col st)))).
Proof.
  split; [|split; [|split; [|split]]].
  - intros text pos m Hm Hk. unfold pattern_match in Hm.
    apply match_some in Hm. destruct Hm as (rest & Hs & _ & _ & Hg).
    exists rest. split; [exact Hs|]. rewrite Hk in Hg.
    destruct Hg as [[_ H]|[[E _]|[[E _]|[[E _]|[E _]]]]]; (exact H || discriminate E).
  - intros text pos c rest Hs Hc. unfold pattern_match.
    rewrite Hs, match_master, Hc. eexists. split; reflexivity.
  - intros c. unfold is_blank. class_arith.
  - reflexivity.
  - intros text st Hr Hlt Hu.
    pose proof (reaches_pos text st Hr) as Hp.
    destruct (slice_from_cons text (st_pos st) ltac:(lia)) as (c & rest & Hs & Hc).
    assert (Hn : pattern_match master_pattern text (st_pos st) = None).
    { unfold pattern_match. apply match_none. rewrite Hs, <- Hc. exact Hu. }
    rewrite <- (reaches_tokenize text st Hr (S (length text)))
      by (unfold len in *; lia).
    rewrite while_loop_step by exact Hlt.
    rewrite (loop_body_none text st Hn). reflexivity.
Qed.

(** The amended claim at a concrete input: 'A' after "x = ". *)
Lemma C4_witness :
  let text := lit "x = A;" in
  let st := mkState 4 1 5 [mkToken "IDENTIFIER" (lit "x") 1 1;
                           mkToken "OPERATOR" (lit "=") 1 3] in
  Reaches text st
  /\ tokenize text = Some (Raised (ValueError (ord "A") 1 5)).
Proof.
  assert (Hr : Reaches (lit "x = A;")
                 (mkState 4 1 5 [mkToken "IDENTIFIER" (lit "x") 1 1;
                                 mkToken "OPERATOR" (lit "=") 1 3])).
  { apply (reaches_step _ (mkState 3 1 4 [mkToken "IDENTIFIER" (lit "x") 1 1;
                                         mkToken "OPERATOR" (lit "=") 1 3]));
      [|reflexivity|reflexivity].
    apply (reaches_step _ (mkState 2 1 3 [mkToken "IDENTIFIER" (lit "x") 1 1]));
      [|reflexivity|reflexivity].
    apply (reaches_step _ (mkState 1 1 2 [mkToken "IDENTIFIER" (lit "x") 1 1]));
      [|reflexivity|reflexivity].
    apply (reaches_step _ initial); [|reflexivity|reflexivity].
    apply reaches_initial. }
  split; [exact Hr|].
  exact (proj2 (proj2 (proj2 (proj2 C4_whitespace_class_and_fatal_characters)))
           (lit "x = A;") _ Hr eq_refl
           (conj eq_refl (conj eq_refl (conj eq_refl (conj eq_refl eq_refl))))).
Defined.

(** C4 as stated fails on a carriage return: it is not a space, a tab or a
    newline and belongs to no token class, yet the scan of the one-character
    text made of it consumes it as whitespace and returns no token and no
    error. *)
Lemma C4_counterexample :
  tokenize [carriage_return] = Some (Return [])
  /\ ~ (forall c : char,
           is_blank c = false -> is_lower c = false -> is_digit c = false ->
           is_operator c = false -> is_delimiter c = false ->
           forall (text : str) (st : State),
             Reaches text st -> st_pos st < len text ->
             index text (st_pos st) = c ->
             exists line col,
               tokenize text = Some (Raised (ValueError c line col))).
Proof.
  split; [reflexivity|]. intros H.
  destruct (H carriage_return eq_refl eq_refl eq_refl eq_refl eq_refl
              [carriage_return] initial (reaches_initial _) eq_refl eq_refl)
    as (line & col & Hc).
  discriminate Hc.
Qed.

(** ** Identifiers and keywords *)

Lemma span_whole (cls : char -> bool) (s : str) :
  Forall (fun c => cls c = true) s -> span cls s = s.
Proof.
  intros H. rewrite <- (app_nil_r s) at 1. rewrite span_app by exact H.
  apply app_nil_r.
Qed.

Lemma is_keyword_true (s : str) : is_keyword s = true <-> In s keywords.
Proof.
  unfold is_keyword. destruct (in_dec str_eq_dec s keywords); split; intros H;
    (assumption || reflexivity || discriminate || contradiction).
Qed.

Lemma is_keyword_false (s : str) : is_keyword s = false <-> ~ In s keywords.
Proof.
  unfold is_keyword. destruct (in_dec str_eq_dec s keywords); split; intros H;
    (assumption || reflexivity || discriminate || contradiction).
Qed.

(** A non-empty run of lowercase letters, alone, is one identifier match
    and gives one token, a keyword or an identifier. *)
Lemma tokenize_lowercase (s : str) :
  s <> [] ->
  Forall (fun c => is_lower c = true) s ->
  tokenize s =
  Some (Return [mkToken (if is_keyword s then "KEYWORD" else "IDENTIFIER") s 1 1]).
Proof.
  intros Hne Hl. unfold tokenize.
  destruct s as [|c s'] eqn:Es; [congruence|]. rewrite <- Es in *.
  assert (Hlen : length s = S (length s')) by (rewrite Es; reflexivity).
  rewrite Hlen.
  assert (Hm : pattern_match master_pattern s (st_pos initial)
               = Some (mkMatch "IDENTIFIER" s (0 + len s))).
  { unfold pattern_match. cbn [initial st_pos]. rewrite slice_from_0, match_master.
    rewrite Es. rewrite <- Es.
    assert (Hc : is_lower c = true) by (rewrite Es in Hl; inversion Hl; assumption).
    rewrite (lower_not_space c Hc), Hc, (span_whole is_lower s Hl). reflexivity. }
  rewrite while_loop_step by (cbn [initial st_pos]; apply len_pos; exact Hne).
  rewrite (loop_body_some s initial _ Hm). cbn [group m_end lastgroup].
  rewrite while_loop_exit by (cbn [st_pos]; lia).
  cbn [st_tokens initial st_line st_col app]. reflexivity.
Qed.

(** C5. Each reserved word, tokenized alone, gives exactly one Keyword token
    with that word as its lexeme; every other non-empty string of lowercase
    letters gives exactly one Identifier token.  In the loop, the token
    appended for a match is a Keyword exactly when the match is of the
    identifier group and its text is a reserved word. *)
Theorem C5_keywords_and_identifiers :
  (forall s : str,
      In s keywords -> tokenize s = Some (Return [mkToken "KEYWORD" s 1 1]))
  /\ (forall s : str,
         s <> [] ->
         Forall (fun c => (ord "a" <= c <= ord "z")%N) s ->
         ~ In s keywords ->
         tokenize s = Some (Return [mkToken "IDENTIFIER" s 1 1]))
  /\ (forall (text : str) (st : State) (m : Match),
         pattern_match master_pattern text (st_pos st) = Some m ->
         lastgroup m <> "WHITESPACE" ->
         exists st' t,
           loop_body text st = Continue st'
           /\ st_tokens st' = st_tokens st ++ [t]
           /\ lexeme t = group m
           /\ (type t = "KEYWORD" <->
               lastgroup m = "IDENTIFIER" /\ In (group m) keywords)).
Proof.
  split; [|split].
  - intros s Hs. cbn [keywords In] in Hs.
    destruct Hs as [<-|[<-|[<-|[]]]]; vm_compute; reflexivity.
  - intros s Hne Hl Hk. rewrite tokenize_lowercase.
    + apply is_keyword_false in Hk. rewrite Hk. reflexivity.
    + exact Hne.
    + eapply Forall_impl; [|exact Hl]. cbv beta. intros c Hc.
      change (ord "a") with 97%N in Hc. change (ord "z") with 122%N in Hc.
      unfold is_lower. rewrite andb_true_iff, !N.leb_le. exact Hc.
  - intros text st m Hm Hws. rewrite (loop_body_some text st m Hm).
    unfold emitted. apply String.eqb_neq in Hws. rewrite Hws.
    eexists. eexists. split; [reflexivity|]. cbn [st_tokens lexeme type].
    split; [reflexivity|]. split; [reflexivity|].
    unfold token_type_of. unfold pattern_match in Hm. apply match_some in Hm.
    destruct Hm as (rest & _ & _ & _ & Hg).
    destruct Hg as [[E _]|[[E _]|[[E _]|[[E _]|[E _]]]]]; rewrite E in *;
      cbn [String.eqb Ascii.eqb Bool.eqb]; cbv iota.
    + discriminate Hws.
    + destruct (is_keyword (group m)) eqn:Ek.
      * apply is_keyword_true in Ek. tauto.
      * apply is_keyword_false in Ek. split; [discriminate | tauto].
    + split; [discriminate | intros [H _]; discriminate H].
    + split; [discriminate | intros [H _]; discriminate H].
    + split; [discriminate | intros [H _]; discriminate H].
Qed.

(** The second part of C5 at "ifx", the third at the first match of "x=1". *)
Lemma C5_witness :
  tokenize (lit "ifx") = Some (Return [mkToken "IDENTIFIER" (lit "ifx") 1 1])
  /\ tokenize (lit "while") = Some (Return [mkToken "KEYWORD" (lit "while") 1 1])
  /\ exists st' t,
      loop_body (lit "x=1") initial = Continue st'
      /\ st_tokens st' = st_tokens initial ++ [t]
      /\ lexeme t = lit "x"
      /\ (type t = "KEYWORD" <-> "IDENTIFIER" = "IDENTIFIER" /\ In (lit "x") keywords).
Proof.
  split; [|split].
  - apply (proj1 (proj2 C5_keywords_and_identifiers) (lit "ifx")).
    + discriminate.
    + repeat constructor; vm_compute; discriminate.
    + intros [H|[H|[H|[]]]]; discriminate H.
  - apply (proj1 C5_keywords_and_identifiers (lit "while")).
    right. right. left. reflexivity.
  - exact (proj2 (proj2 C5_keywords_and_identifiers) (lit "x=1") initial
             (mkMatch "IDENTIFIER" (lit "x") 1) eq_refl
             ltac:(discriminate)).
Defined.

(** C6. An identifier match is the whole maximal run of lowercase letters
    at the cursor, and the reserved-word test is made on that whole run:
    the token appended is a Keyword if the run is a reserved word and an
    Identifier otherwise.  So "ifx" is one Identifier token, not Keyword
    "if" followed by Identifier "x". *)
Theorem C6_longest_lowercase_run :
  (forall (text : str) (st : State) (m : Match),
      pattern_match master_pattern text (st_pos st) = Some m ->
      lastgroup m = "IDENTIFIER" ->
      exists rest st',
        slice_from text (st_pos st) = group m ++ rest
        /\ run_of is_lower (group m) rest
        /\ loop_body text st = Continue st'
        /\ st_tokens st' =
           st_tokens st
             ++ [mkToken (if is_keyword (group m) then "KEYWORD" else "IDENTIFIER")
                   (group m) (st_line st) (st_col st)])
  /\ tokenize (lit "ifx") = Some (Return [mkToken "IDENTIFIER" (lit "ifx") 1 1]).
Proof.
  split; [|vm_compute; reflexivity].
  intros text st m Hm Hk. rewrite (loop_body_some text st m Hm).
  unfold pattern_match in Hm. apply match_some in Hm.
  destruct Hm as (rest & Hs & _ & _ & Hg). exists rest. eexists.
  split; [exact Hs|]. rewrite Hk in Hg.
  destruct Hg as [[E _]|[[_ H]|[[E _]|[[E _]|[E _]]]]]; try discriminate E.
  split; [exact H|]. split; [reflexivity|].
  cbn [st_tokens]. unfold emitted, token_type_of. rewrite Hk. reflexivity.
Qed.

(** The first match of "ifx = 1" is the identifier run "ifx". *)
Lemma C6_witness :
  exists rest st',
    slice_from (lit "ifx = 1") 0 = lit "ifx" ++ rest
    /\ run_of is_lower (lit "ifx") rest
    /\ loop_body (lit "ifx = 1") initial = Continue st'
    /\ st_tokens st' = [mkToken "IDENTIFIER" (lit "ifx") 1 1].
Proof.
  exact (proj1 C6_longest_lowercase_run (lit "ifx = 1") initial
           (mkMatch "IDENTIFIER" (lit "ifx") 3) eq_refl eq_refl).
Defined.

(** ** Shape of the tokens *)

Lemma is_lower_range (c : char) :
  is_lower c = true -> (ord "a" <= c <= ord "z")%N.
Proof.
  change (ord "a") with 97%N. change (ord "z") with 122%N.
  unfold is_lower. rewrite andb_true_iff, !N.leb_le. tauto.
Qed.

Lemma is_digit_range (c : char) :
  is_digit c = true -> (ord "0" <= c <= ord "9")%N.
Proof.
  change (ord "0") with 48%N. change (ord "9") with 57%N.
  unfold is_digit. rewrite andb_true_iff, !N.leb_le. tauto.
Qed.

Lemma is_operator_in (c : char) : is_operator c = true -> In c (lit "+-*/=").
Proof.
  change (lit "+-*/=") with [43; 45; 42; 47; 61]%N. cbn [In].
  unfold is_operator. rewrite !orb_true_iff, !N.eqb_eq. intuition auto.
Qed.

Lemma is_delimiter_in (c : char) : is_delimiter c = true -> In c (lit "();").
Proof.
  change (lit "();") with [40; 41; 59]%N. cbn [In].
  unfold is_delimiter. rewrite !orb_true_iff, !N.eqb_eq. intuition auto.
Qed.

Lemma emitted_conforms (m : Match) (rest : str) (line col : Z) :
  matches_group (lastgroup m) (group m) rest ->
  Forall conforms (emitted m line col).
Proof.
  unfold emitted, token_type_of, conforms.
  intros [[E H]|[[E H]|[[E H]|[[E H]|[E H]]]]]; rewrite E;
    cbn [String.eqb Ascii.eqb Bool.eqb]; cbv iota;
    [constructor | | | |]; (constructor; [|constructor]); cbn [lexeme type].
  - destruct H as (Hne & Hl & _). split; [exact Hne|].
    destruct (is_keyword (group m)) eqn:Ek.
    + apply is_keyword_true in Ek. auto.
    + apply is_keyword_false in Ek. right. left.
      split; [reflexivity|]. split; [|exact Ek].
      eapply Forall_impl; [|exact Hl]. exact is_lower_range.
  - destruct H as (Hne & Hl & _). split; [exact Hne|].
    right. right. left. split; [reflexivity|].
    eapply Forall_impl; [|exact Hl]. exact is_digit_range.
  - destruct H as (c & Hc & Ho). split; [rewrite Hc; discriminate|].
    do 3 right. left. split; [reflexivity|].
    exists c. auto using is_operator_in.
  - destruct H as (c & Hc & Ho). split; [rewrite Hc; discriminate|].
    do 4 right. split; [reflexivity|].
    exists c. auto using is_delimiter_in.
Qed.

(** What one step does to a state the scan has reached. *)
Lemma reaches_step_inv (text : str) (st st' : State) :
  Reaches text st ->
  st_pos st < len text ->
  loop_body text st = Continue st' ->
  exists m rest,
    pattern_match master_pattern text (st_pos st) = Some m
    /\ slice_from text (st_pos st) = group m ++ rest
    /\ slice_from text (m_end m) = rest
    /\ group m <> []
    /\ m_end m = st_pos st + len (group m)
    /\ matches_group (lastgroup m) (group m) rest
    /\ st' = mkState (m_end m)
               (fst (_advance_position (group m) (st_line st) (st_col st)))
               (snd (_advance_position (group m) (st_line st) (st_col st)))
               (st_tokens st ++ emitted m (st_line st) (st_col st)).
Proof.
  intros Hr Hlt Hb. pose proof (reaches_pos text st Hr) as Hp.
  destruct (loop_body_cases text st ltac:(lia))
    as [(_ & _ & Hc)|(m & rest & Hm & Hs & Hs' & Hne & He & Hg & Hc)]; [congruence|].
  exists m, rest. rewrite Hc in Hb. injection Hb as <-. auto 10.
Qed.

(** A successful call returns the tokens of a reached state at the end. *)
Lemma tokenize_return (text : str) (tokens : list Token) :
  tokenize text = Some (Return tokens) ->
  exists st, Reaches text st /\ len text <= st_pos st /\ st_tokens st = tokens.
Proof.
  intros Ht. unfold tokenize in Ht.
  destruct (while_loop_result text _ _ _ (reaches_initial text) Ht)
    as (st & Hr & [[Hge He]|(_ & _ & He)]); [|discriminate].
  injection He as ->. eauto.
Qed.

Lemma reaches_conforms (text : str) (st : State) :
  Reaches text st -> Forall conforms (st_tokens st).
Proof.
  induction 1 as [|st st' Hr IH Hlt Hb]; [constructor|].
  destruct (reaches_step_inv text st st' Hr Hlt Hb)
    as (m & rest & _ & _ & _ & _ & _ & Hg & ->).
  cbn [st_tokens]. apply Forall_app. split; [exact IH|].
  eapply emitted_conforms. exact Hg.
Qed.

(** C10. Every token the loop appends, and so every token [tokenize]
    returns, has a non-empty lexeme of the shape of its category: a Keyword
    is one of "if", "else", "while"; an Identifier is a run of lowercase
    letters that is not one of them; an Integer is a run of digits; an
    Operator is one character among [+ - * / =]; a Delimiter is one
    character among [( ) ;].  There is no other category. *)
Theorem C10_tokens_conform :
  (forall (text : str) (st : State),
      Reaches text st -> Forall conforms (st_tokens st))
  /\ (forall (text : str) (tokens : list Token),
         tokenize text = Some (Return tokens) -> Forall conforms tokens)
  /\ keywords = [lit "if"; lit "else"; lit "while"].
Proof.
  split; [|split; [|reflexivity]].
  - exact reaches_conforms.
  - intros text tokens Ht.
    destruct (tokenize_return text tokens Ht) as (st & Hr & _ & <-).
    exact (reaches_conforms text st Hr).
Qed.

(** The tokens of "if (x" conform. *)
Lemma C10_witness :
  Forall conforms
    [ mkToken "KEYWORD" (lit "if") 1 1;
      mkToken "DELIMITER" (lit "(") 1 4;
      mkToken "IDENTIFIER" (lit "x") 1 5 ].
Proof.
  apply (proj1 (proj2 C10_tokens_conform) (lit "if (x")).
  vm_compute. reflexivity.
Defined.

(** ** Order of the tokens *)

Lemma StronglySorted_snoc {A : Type} (R : A -> A -> Prop) (l : list A) (x : A) :
  StronglySorted R l -> Forall (fun y => R y x) l -> StronglySorted R (l ++ [x]).
Proof.
  induction 1 as [|a l Hs IH Ha]; intros Hx; cbn [app].
  - repeat constructor.
  - inversion Hx as [|? ? Hax Hlx]; subst. constructor; [auto|].
    apply Forall_app. split; [exact Ha|]. repeat constructor. exact Hax.
Qed.

Lemma StronglySorted_adjacent {A : Type} (R : A -> A -> Prop) (l : list A) :
  StronglySorted R l ->
  forall (i : nat) (a b : A),
    nth_error l i = Some a -> nth_error l (S i) = Some b -> R a b.
Proof.
  induction 1 as [|x l Hs IH Hx]; intros i a b Ha Hb.
  - destruct i; discriminate Ha.
  - destruct i as [|i]; cbn [nth_error] in Ha, Hb.
    + injection Ha as <-. rewrite Forall_forall in Hx. apply Hx.
      destruct l; [discriminate Hb|]. cbn in Hb. injection Hb as <-. left. reflexivity.
    + eapply IH; eassumption.
Qed.

(** Along the scan the tokens are in source order and all start before the
    cursor. *)
Lemma reaches_sorted (text : str) (st : State) :
  Reaches text st ->
  StronglySorted starts_before (st_tokens st)
  /\ Forall (fun t => pos_lt (line t) (col t) (st_line st) (st_col st))
       (st_tokens st).
Proof.
  induction 1 as [|st st' Hr [IHs IHc] Hlt Hb]; [split; constructor|].
  destruct (reaches_step_inv text st st' Hr Hlt Hb)
    as (m & rest & _ & _ & _ & Hne & _ & _ & ->).
  cbn [st_tokens st_line st_col].
  destruct (_advance_position (group m) (st_line st) (st_col st)) as [l' c'] eqn:Ea.
  cbn [fst snd]. pose proof (advance_increases _ _ _ _ _ Hne Ea) as Hinc.
  assert (Hold : Forall (fun t => pos_lt (line t) (col t) l' c') (st_tokens st)).
  { eapply Forall_impl; [|exact IHc]. cbv beta. unfold pos_lt. intros t Ht. lia. }
  unfold emitted. destruct (lastgroup m =? "WHITESPACE")%string.
  - rewrite app_nil_r. split; assumption.
  - split.
    + apply StronglySorted_snoc; [exact IHs|]. exact IHc.
    + apply Forall_app. split; [exact Hold|]. constructor; [|constructor].
      cbn [line col]. exact Hinc.
Qed.

(** C9. The tokens returned are in strictly increasing source order: from
    each token to the next the line does not decrease and the start
    (line, column) grows strictly in the lexicographic order. *)
Theorem C9_tokens_in_source_order (text : str) (tokens : list Token) :
  tokenize text = Some (Return tokens) ->
  forall (i : nat) (t1 t2 : Token),
    nth_error tokens i = Some t1 ->
    nth_error tokens (S i) = Some t2 ->
    line t1 <= line t2
    /\ (line t1 < line t2 \/ (line t1 = line t2 /\ col t1 < col t2)).
Proof.
  intros Ht i t1 t2 H1 H2.
  destruct (tokenize_return text tokens Ht) as (st & Hr & _ & <-).
  destruct (reaches_sorted text st Hr) as [Hs _].
  pose proof (StronglySorted_adjacent _ _ Hs i t1 t2 H1 H2) as Hlt.
  unfold starts_before, pos_lt in Hlt. split; [lia | exact Hlt].
Qed.

(** In "x", newline, "y" the second token starts on a later line. *)
Lemma C9_witness :
  let t1 := mkToken "IDENTIFIER" (lit "x") 1 1 in
  let t2 := mkToken "IDENTIFIER" (lit "y") 2 1 in
  tokenize (lit "x" ++ [newline] ++ lit "y") = Some (Return [t1; t2])
  /\ line t1 <= line t2
  /\ (line t1 < line t2 \/ (line t1 = line t2 /\ col t1 < col t2)).
Proof.
  split; [reflexivity|].
  exact (C9_tokens_in_source_order
           (lit "x" ++ [newline] ++ lit "y")
           [mkToken "IDENTIFIER" (lit "x") 1 1; mkToken "IDENTIFIER" (lit "y") 2 1]
           eq_refl 0%nat
           (mkToken "IDENTIFIER" (lit "x") 1 1)
           (mkToken "IDENTIFIER" (lit "y") 2 1)
           eq_refl eq_refl).
Defined.

(** ** The spans tile the text *)

Lemma matches_loop_spec (text : str) (fuel : nat) (st : State) (tokens : list Token) :
  0 <= st_pos st <= len text ->
  while_loop fuel text st = Some (Return tokens) ->
  concat (map group (matches_loop fuel text st)) = slice_from text (st_pos st)
  /\ map lexeme tokens =
     map lexeme (st_tokens st)
       ++ map group (filter emits (matches_loop fuel text st))
  /\ map m_end (matches_loop fuel text st) =
     offsets (st_pos st) (map group (matches_loop fuel text st)).
Proof.
  revert st. induction fuel as [|fuel IH]; intros st Hp Hw.
  - cbn [while_loop matches_loop] in *.
    destruct (Z.ltb_spec (st_pos st) (len text)); [discriminate|].
    injection Hw as <-. cbn [map concat filter offsets]. rewrite app_nil_r.
    rewrite slice_from_nil by lia. auto.
  - destruct (Z.ltb_spec (st_pos st) (len text)) as [Hlt|Hge].
    + rewrite while_loop_step in Hw by exact Hlt.
      cbn [matches_loop]. destruct (Z.ltb_spec (st_pos st) (len text)); [|lia].
      destruct (loop_body_cases text st ltac:(lia))
        as [(_ & _ & Hb)|(m & rest & Hm & Hs & Hs' & Hne & He & _ & Hb)];
        rewrite Hb in Hw; [discriminate|].
      rewrite Hm, Hb.
      assert (Hp' : 0 <= m_end m <= len text).
      { pose proof (loop_body_pos text st _ ltac:(lia) Hb) as H'. cbn [st_pos] in H'. lia. }
      apply IH in Hw; [|exact Hp'].
      destruct Hw as (Hc & Hl & Ho). cbn [st_pos st_tokens] in Hc, Hl, Ho.
      cbn [map concat filter offsets]. split; [|split].
      * rewrite Hc, Hs, Hs'. reflexivity.
      * rewrite Hl, map_app, <- app_assoc. f_equal.
        unfold emitted, emits. destruct (lastgroup m =? "WHITESPACE")%string;
          reflexivity.
      * rewrite Ho, He. reflexivity.
    + rewrite while_loop_exit in Hw by lia. injection Hw as <-.
      cbn [matches_loop]. destruct (Z.ltb_spec (st_pos st) (len text)); [lia|].
      cbn [map concat filter offsets]. rewrite app_nil_r.
      rewrite slice_from_nil by lia. auto.
Qed.

(** C7. When [tokenize] succeeds, the matches of the scan, taken in order,
    are the lexemes of the returned tokens interleaved with the skipped
    whitespace spans, and their concatenation is the input: each span ends
    where the spans so far add up to, so the spans tile the text without
    gap or overlap. *)
Theorem C7_round_trip (text : str) (tokens : list Token) :
  tokenize text = Some (Return tokens) ->
  concat (map group (matches text)) = text
  /\ map lexeme tokens = map group (filter emits (matches text))
  /\ map m_end (matches text) = offsets 0 (map group (matches text)).
Proof.
  intros Ht. unfold tokenize in Ht.
  assert (Hp : 0 <= st_pos initial <= len text)
    by (cbn [initial st_pos]; pose proof (len_nonneg text); lia).
  exact (matches_loop_spec text (length text) initial tokens Hp Ht).
Qed.

(** The three spans of "x", newline, "y": identifier, whitespace, identifier. *)
Lemma C7_witness :
  let text := lit "x" ++ [newline] ++ lit "y" in
  matches text = [ mkMatch "IDENTIFIER" (lit "x") 1;
                   mkMatch "WHITESPACE" [newline] 2;
                   mkMatch "IDENTIFIER" (lit "y") 3 ]
  /\ concat (map group (matches text)) = text
  /\ map lexeme [mkToken "IDENTIFIER" (lit "x") 1 1;
                 mkToken "IDENTIFIER" (lit "y") 2 1]
     = map group (filter emits (matches text))
  /\ map m_end (matches text) = offsets 0 (map group (matches text)).
Proof.
  split; [reflexivity|].
  exact (C7_round_trip (lit "x" ++ [newline] ++ lit "y")
           [mkToken "IDENTIFIER" (lit "x") 1 1; mkToken "IDENTIFIER" (lit "y") 2 1]
           eq_refl).
Defined.

(** ** The scan of a suffix *)

Lemma prepend_nil (r : option Result) : prepend [] r = r.
Proof. destruct r as [[t|e]|]; reflexivity. Qed.

Lemma prepend_prepend (t1 t2 : list Token) (r : option Result) :
  prepend t1 (prepend t2 r) = prepend (t1 ++ t2) r.
Proof. destruct r as [[t|e]|]; cbn [prepend]; rewrite ?app_assoc; reflexivity. Qed.

Lemma index_slice_from (s : str) (pos : Z) :
  0 <= pos < len s -> index (slice_from s pos) 0 = index s pos.
Proof.
  intros H. destruct (slice_from_cons s pos H) as (c & rest & Hs & Hc).
  rewrite Hs, Hc. reflexivity.
Qed.

(** The loop from [pos] on [text] is the loop from 0 on [text[pos:]], with
    the tokens found so far in front. *)
Lemma while_loop_shift (fuel : nat) (text : str) (pos line col : Z) (tokens : list Token) :
  0 <= pos <= len text ->
  while_loop fuel text (mkState pos line col tokens) =
  prepend tokens (while_loop fuel (slice_from text pos) (mkState 0 line col [])).
Proof.
  revert text pos line col tokens.
  induction fuel as [|fuel IH]; intros text pos line col tokens Hp.
  - cbn [while_loop st_pos st_tokens]. rewrite len_slice_from by exact Hp.
    destruct (Z.ltb_spec pos (len text)); destruct (Z.ltb_spec 0 (len text - pos));
      try lia; cbn [prepend]; rewrite ?app_nil_r; reflexivity.
  - destruct (Z.ltb_spec pos (len text)) as [Hlt|Hge].
    + rewrite !while_loop_step
        by (cbn [st_pos]; rewrite ?len_slice_from by exact Hp; lia).
      assert (Hp0 : 0 <= 0 < len (slice_from text pos))
        by (rewrite len_slice_from by exact Hp; lia).
      destruct (loop_body_cases text (mkState pos line col tokens) ltac:(cbn [st_pos]; lia))
        as [(_ & Hn & Hb)|(m & rest & Hm & Hs & Hs' & Hne & He & _ & Hb)];
        rewrite Hb; cbn [st_pos st_line st_col st_tokens] in *.
      * assert (Hn0 : pattern_match master_pattern (slice_from text pos) 0 = None).
        { unfold pattern_match in *. rewrite slice_from_0.
          rewrite (match_pos _ pos 0), Hn. reflexivity. }
        rewrite (loop_body_none _ (mkState 0 line col []) Hn0).
        cbn [st_pos st_line st_col prepend]. rewrite index_slice_from by lia.
        reflexivity.
      * assert (Hm0 : pattern_match master_pattern (slice_from text pos) 0
                      = Some (mkMatch (lastgroup m) (group m) (0 + len (group m)))).
        { unfold pattern_match in *. rewrite slice_from_0.
          rewrite (match_pos _ pos 0), Hm. reflexivity. }
        rewrite (loop_body_some _ (mkState 0 line col []) _ Hm0).
        cbn [st_pos st_line st_col st_tokens group m_end lastgroup app].
        assert (Hl : len (slice_from text pos) = len (group m) + len rest)
          by (rewrite Hs; apply len_app).
        rewrite len_slice_from in Hl by exact Hp.
        pose proof (len_nonneg rest). pose proof (len_nonneg (group m)).
        rewrite (IH text) by lia.
        rewrite (IH (slice_from text pos))
          by (rewrite len_slice_from by exact Hp; lia).
        rewrite prepend_prepend. rewrite <- slice_from_add by lia.
        rewrite He. reflexivity.
    + rewrite !while_loop_exit
        by (cbn [st_pos]; rewrite ?len_slice_from by exact Hp; lia).
      cbn [prepend st_tokens]. rewrite app_nil_r. reflexivity.
Qed.

Lemma lex_nil (line col : Z) : lex [] line col = Some (Return []).
Proof. reflexivity. Qed.

(** The equation of the scan of a non-empty suffix. *)
Lemma lex_cons (c : char) (s : str) (line col : Z) :
  lex (c :: s) line col =
  match match_alternatives master_pattern (c :: s) 0 with
  | None => Some (Raised (ValueError c line col))
  | Some m =>
      prepend (emitted m line col)
        (lex (skipn (length (group m)) (c :: s))
           (fst (_advance_position (group m) line col))
           (snd (_advance_position (group m) line col)))
  end.
Proof.
  unfold lex at 1. cbn [length].
  rewrite while_loop_step by (cbn [st_pos]; rewrite len_cons; pose proof (len_nonneg s); lia).
  destruct (match_alternatives master_pattern (c :: s) 0) as [m|] eqn:Hm.
  - rewrite (loop_body_some (c :: s) (mkState 0 line col []) m Hm).
    cbn [st_line st_col st_tokens app].
    apply match_some in Hm. destruct Hm as (rest & Hs & Hne & He & _).
    assert (Hl : len (c :: s) = len (group m) + len rest)
      by (rewrite Hs at 1; apply len_app).
    pose proof (len_nonneg rest). pose proof (len_pos _ Hne).
    rewrite while_loop_shift by lia. f_equal.
    assert (Hsk : slice_from (c :: s) (m_end m) = skipn (length (group m)) (c :: s)).
    { unfold slice_from. rewrite He. f_equal. unfold len. lia. }
    rewrite Hsk. unfold lex. apply while_loop_fuel; cbn [st_pos].
    + lia.
    + rewrite len_cons in Hl. unfold len in *. rewrite length_skipn.
      change (length (c :: s)) with (S (length s)). lia.
    + unfold len. lia.
  - rewrite (loop_body_none (c :: s) (mkState 0 line col []) Hm). reflexivity.
Qed.

Lemma tokenize_lex (text : str) : tokenize text = lex text 1 1.
Proof. reflexivity. Qed.

Lemma advance_advance (a b : str) (p : Z * Z) :
  advance (a ++ b) p = advance b (advance a p).
Proof.
  unfold advance. rewrite advance_app.
  destruct (_advance_position a (fst p) (snd p)). reflexivity.
Qed.

Lemma advance_empty (p : Z * Z) : advance [] p = p.
Proof. destruct p. apply advance_nil. Qed.

Lemma lex_at_cons (c : char) (s : str) (p : Z * Z) :
  lex_at (c :: s) p =
  match match_alternatives master_pattern (c :: s) 0 with
  | None => Some (Raised (ValueError c (fst p) (snd p)))
  | Some m =>
      prepend (emitted m (fst p) (snd p))
        (lex_at (skipn (length (group m)) (c :: s)) (advance (group m) p))
  end.
Proof. unfold lex_at, advance. apply lex_cons. Qed.

(** A leading run of whitespace only moves the position. *)
Lemma lex_span_space (b : str) (p : Z * Z) :
  lex_at b p =
  lex_at (skipn (length (span is_space b)) b) (advance (span is_space b) p).
Proof.
  destruct b as [|x b]; [cbn [span length skipn]; rewrite advance_empty; reflexivity|].
  destruct (is_space x) eqn:Ex.
  - rewrite lex_at_cons, match_master, Ex. unfold emitted.
    cbn [lastgroup group String.eqb Ascii.eqb Bool.eqb]. cbv iota.
    apply prepend_nil.
  - cbn [span]. rewrite Ex. cbn [length skipn]. rewrite advance_empty. reflexivity.
Qed.

Lemma skipn_length_app (a b : str) : skipn (length a) (a ++ b) = b.
Proof. rewrite skipn_app, skipn_all, Nat.sub_diag. reflexivity. Qed.

Lemma lex_skip_ws (w b : str) (p : Z * Z) :
  Forall (fun c => is_space c = true) w ->
  lex_at (w ++ b) p = lex_at b (advance w p).
Proof.
  intros Hw. rewrite (lex_span_space (w ++ b)), (lex_span_space b).
  rewrite (span_app is_space w b Hw).
  destruct (span_split is_space b) as (b' & Hb & _).
  remember (span is_space b) as sb eqn:Esb. clear Esb. subst b.
  rewrite app_assoc, !skipn_length_app, advance_advance.
  reflexivity.
Qed.

Lemma emitted_shape (m : Match) (p p' : Z * Z) :
  map category_lexeme (emitted m (fst p') (snd p'))
  = map category_lexeme (emitted m (fst p) (snd p)).
Proof. unfold emitted. destruct (lastgroup m =? "WHITESPACE")%string; reflexivity. Qed.

Lemma prepend_return (t : list Token) (r : option Result) (T : list Token) :
  prepend t r = Some (Return T) ->
  exists T0, r = Some (Return T0) /\ T = t ++ T0.
Proof.
  destruct r as [[T0|e]|]; cbn [prepend]; intros H; try discriminate H.
  injection H as <-. eauto.
Qed.

(** The categories and lexemes do not depend on the start position. *)
Lemma lex_shape (n : nat) (b : str) (p p' : Z * Z) (T : list Token) :
  (length b <= n)%nat ->
  lex_at b p = Some (Return T) ->
  exists T', lex_at b p' = Some (Return T')
             /\ map category_lexeme T' = map category_lexeme T.
Proof.
  revert b p p' T. induction n as [|n IH]; intros b p p' T Hn Hl.
  - destruct b; [|cbn [length] in Hn; lia].
    unfold lex_at in *. rewrite lex_nil in *. injection Hl as <-.
    exists []. auto.
  - destruct b as [|x b].
    + unfold lex_at in *. rewrite lex_nil in *. injection Hl as <-.
      exists []. auto.
    + rewrite lex_at_cons in Hl. rewrite lex_at_cons.
      destruct (match_alternatives master_pattern (x :: b) 0) as [m|] eqn:Hm;
        [|discriminate Hl].
      apply prepend_return in Hl. destruct Hl as (T0 & Hl & ->).
      apply match_some in Hm. destruct Hm as (rest & Hs & Hne & _ & _).
      assert (Hlen : (length (skipn (length (group m)) (x :: b)) <= n)%nat).
      { rewrite length_skipn. cbn [length] in *.
        destruct (group m); [congruence | cbn [length]; lia]. }
      destruct (IH _ _ (advance (group m) p') _ Hlen Hl) as (T0' & Hl' & Hsh).
      rewrite Hl'. cbn [prepend]. eexists. split; [reflexivity|].
      rewrite !map_app, Hsh, (emitted_shape m p p'). reflexivity.
Qed.

(** ** Splitting the text where no token is cut *)

Lemma glued_app_l (g a b : str) : glued a b -> glued (g ++ a) b.
Proof.
  intros (a' & x & y & b' & -> & -> & H).
  exists (g ++ a'), x, y, b'. rewrite app_assoc. auto.
Qed.

Lemma span_app_stop (cls : char -> bool) (a b : str) :
  (Forall (fun c => cls c = true) a ->
   match b with [] => True | y :: _ => cls y = false end) ->
  span cls (a ++ b) = span cls a.
Proof.
  induction a as [|x a IH]; intros H; cbn [span app].
  - apply span_stop. apply H. constructor.
  - destruct (cls x) eqn:Ex; [|reflexivity]. f_equal. apply IH.
    intros Ha. apply H. constructor; assumption.
Qed.

Lemma Forall_last (P : char -> Prop) (a' : str) (x : char) :
  Forall P (a' ++ [x]) -> P x.
Proof.
  intros H. apply Forall_app in H. destruct H as [_ H].
  inversion H; assumption.
Qed.

Lemma match_app_unglued (x : char) (a1 b : str) :
  ~ glued (x :: a1) b ->
  is_space x = false ->
  match_alternatives master_pattern ((x :: a1) ++ b) 0
  = match_alternatives master_pattern (x :: a1) 0.
Proof.
  intros Hg Hx. rewrite !match_master. cbn [app]. rewrite Hx.
  change (x :: a1 ++ b) with ((x :: a1) ++ b).
  assert (Hstop : forall cls : char -> bool,
             (forall c, cls c = true -> is_lower c = true)
             \/ (forall c, cls c = true -> is_digit c = true) ->
             span cls ((x :: a1) ++ b) = span cls (x :: a1)).
  { intros cls Hcls. apply span_app_stop. intros Hall.
    destruct b as [|y b']; [exact I|].
    destruct (cls y) eqn:Ey; [|reflexivity]. exfalso. apply Hg.
    destruct (exists_last (l := x :: a1) ltac:(discriminate)) as (a' & z & Ha).
    exists a', z, y, b'. split; [exact Ha|]. split; [reflexivity|].
    rewrite Ha in Hall. apply Forall_last in Hall.
    destruct Hcls as [Hcls|Hcls]; [left | right]; auto. }
  rewrite (Hstop is_lower) by (left; auto).
  rewrite (Hstop is_digit) by (right; auto).
  reflexivity.
Qed.

(** Where the text is split without cutting a token, the scan of the whole
    is the scan of the first part followed by the scan of the second from
    the position the first part ends at. *)
Lemma lex_app (n : nat) (a b : str) (p : Z * Z) :
  (length a <= n)%nat ->
  ~ glued a b ->
  lex_at (a ++ b) p =
  match lex_at a p with
  | Some (Return ta) => prepend ta (lex_at b (advance a p))
  | r => r
  end.
Proof.
  revert a p. induction n as [|n IH]; intros a p Hn Hg.
  - destruct a; [|cbn [length] in Hn; lia].
    unfold lex_at at 2. rewrite lex_nil, advance_empty, prepend_nil. reflexivity.
  - destruct a as [|x a1].
    { unfold lex_at at 2. rewrite lex_nil, advance_empty, prepend_nil. reflexivity. }
    destruct (is_space x) eqn:Ex.
    + destruct (span_run_of is_space x a1 Ex) as (a2 & Ha & Hne & Hall & _).
      remember (span is_space (x :: a1)) as ga eqn:Ega. clear Ega.
      assert (Hlen : (length a2 <= n)%nat).
      { apply (f_equal (@length _)) in Ha. rewrite length_app in Ha.
        cbn [length] in *. destruct ga; [congruence | cbn [length] in Ha; lia]. }
      assert (Hg2 : ~ glued a2 b).
      { intros H. apply Hg. rewrite Ha. apply glued_app_l. exact H. }
      rewrite Ha, <- app_assoc.
      rewrite (lex_skip_ws ga (a2 ++ b)), (lex_skip_ws ga a2) by exact Hall.
      rewrite (IH a2 _ Hlen Hg2), advance_advance. reflexivity.
    + change ((x :: a1) ++ b) with (x :: (a1 ++ b)). rewrite !lex_at_cons.
      change (x :: (a1 ++ b)) with ((x :: a1) ++ b).
      rewrite (match_app_unglued x a1 b Hg Ex).
      destruct (match_alternatives master_pattern (x :: a1) 0) as [m|] eqn:Hm;
        [|reflexivity].
      apply match_some in Hm. destruct Hm as (a2 & Ha & Hne & _ & _).
      assert (Hlen : (length a2 <= n)%nat).
      { apply (f_equal (@length _)) in Ha. rewrite length_app in Ha.
        cbn [length] in *. destruct (group m); [congruence | cbn [length] in Ha; lia]. }
      assert (Hg2 : ~ glued a2 b).
      { intros H. apply Hg. rewrite Ha. apply glued_app_l. exact H. }
      rewrite Ha, <- app_assoc, !skipn_length_app.
      rewrite (IH a2 _ Hlen Hg2), advance_advance.
      destruct (lex_at a2 (advance (group m) p)) as [[ta|e]|]; cbn [prepend];
        [|reflexivity|reflexivity].
      apply prepend_prepend.
Qed.

(** ** Gaps between tokens *)

Lemma lower_not_digit (c : char) : is_lower c = true -> is_digit c = false.
Proof. class_arith. Qed.

Lemma digit_not_lower (c : char) : is_digit c = true -> is_lower c = false.
Proof. class_arith. Qed.

Lemma operator_not_lower (c : char) : is_operator c = true -> is_lower c = false.
Proof. class_arith. Qed.

Lemma operator_not_digit (c : char) : is_operator c = true -> is_digit c = false.
Proof. class_arith. Qed.

Lemma delimiter_not_lower (c : char) : is_delimiter c = true -> is_lower c = false.
Proof. class_arith. Qed.

Lemma delimiter_not_digit (c : char) : is_delimiter c = true -> is_digit c = false.
Proof. class_arith. Qed.

Lemma blank_is_space (c : char) : is_blank c = true -> is_space c = true.
Proof. unfold is_blank. class_arith. Qed.

Lemma slice_to_from (s : str) (pos : Z) : slice_to s pos ++ slice_from s pos = s.
Proof. apply firstn_skipn. Qed.

Lemma len_slice_to (s : str) (pos : Z) : 0 <= pos <= len s -> len (slice_to s pos) = pos.
Proof. unfold len, slice_to. intros H. rewrite length_firstn. lia. Qed.

Lemma slice_to_app (a b : str) : slice_to (a ++ b) (len a) = a.
Proof.
  unfold slice_to, len. rewrite Nat2Z.id, firstn_app, Nat.sub_diag, firstn_all.
  cbn [firstn]. apply app_nil_r.
Qed.

Lemma slice_to_end (s g rest : str) (pos : Z) :
  0 <= pos <= len s ->
  slice_from s pos = g ++ rest ->
  slice_to s (pos + len g) = slice_to s pos ++ g.
Proof.
  intros Hp Hs. pose proof (slice_to_from s pos) as Hd. rewrite Hs in Hd.
  pose proof (len_slice_to s pos Hp) as Hl.
  rewrite <- Hd at 1. rewrite app_assoc.
  replace (pos + len g) with (len (slice_to s pos ++ g)) by (rewrite len_app; lia).
  apply slice_to_app.
Qed.

(** Line and column of a reached state are those of the end of the text
    before the cursor. *)
Lemma reaches_position (text : str) (st : State) :
  Reaches text st ->
  (st_line st, st_col st) = advance (slice_to text (st_pos st)) (1, 1).
Proof.
  induction 1 as [|st st' Hr IH Hlt Hb]; [reflexivity|].
  pose proof (reaches_pos text st Hr) as Hp.
  destruct (reaches_step_inv text st st' Hr Hlt Hb)
    as (m & rest & _ & Hs & _ & _ & He & _ & ->).
  cbn [st_line st_col st_pos]. rewrite <- surjective_pairing.
  rewrite He, (slice_to_end text (group m) rest (st_pos st) Hp Hs).
  rewrite advance_advance, <- IH. reflexivity.
Qed.

(** From a reached state on, [tokenize] is the scan of the rest of the text. *)
Lemma reaches_lex (text : str) (st : State) :
  Reaches text st ->
  tokenize text =
  prepend (st_tokens st)
    (lex_at (slice_from text (st_pos st)) (st_line st, st_col st)).
Proof.
  intros Hr. pose proof (reaches_pos text st Hr) as Hp.
  rewrite <- (reaches_tokenize text st Hr (length text)) by (unfold len in *; lia).
  destruct st as [pos line col tokens]. cbn [st_pos st_line st_col st_tokens] in *.
  rewrite while_loop_shift by exact Hp. f_equal.
  unfold lex_at, lex. cbn [fst snd]. apply while_loop_fuel; cbn [st_pos].
  - lia.
  - rewrite len_slice_from by exact Hp. unfold len. lia.
  - unfold len. lia.
Qed.

Lemma unglued_by_class (a0 g b : str) :
  g <> [] ->
  (forall z y, In z g -> is_lower z = true -> is_lower y = true ->
               match b with [] => True | c :: _ => c <> y end) ->
  (forall z y, In z g -> is_digit z = true -> is_digit y = true ->
               match b with [] => True | c :: _ => c <> y end) ->
  ~ glued (a0 ++ g) b.
Proof.
  intros Hne Hl Hd (a' & x & y & b' & Ha & Hb & Hc).
  destruct (exists_last Hne) as (g' & z & Hg). subst g b.
  rewrite app_assoc in Ha. apply app_inj_tail in Ha. destruct Ha as [_ <-].
  assert (Hin : In z (g' ++ [z])) by (apply in_or_app; right; left; reflexivity).
  destruct Hc as [[Hz Hy]|[Hz Hy]].
  - exact (Hl z y Hin Hz Hy eq_refl).
  - exact (Hd z y Hin Hz Hy eq_refl).
Qed.

Lemma Forall_In_class (cls : char -> bool) (g : str) (z : char) :
  Forall (fun c => cls c = true) g -> In z g -> cls z = true.
Proof. intros H. rewrite Forall_forall in H. apply H. Qed.

(** A cursor position of the scan never cuts a token. *)
Lemma reaches_unglued (a b : str) (st : State) :
  Reaches (a ++ b) st -> st_pos st = len a -> ~ glued a b.
Proof.
  intros Hr Hp. destruct Hr as [|st st' Hr Hlt Hb].
  - cbn [initial st_pos] in Hp. destruct a; [|rewrite len_cons in Hp; pose proof (len_nonneg a); lia].
    intros (a' & x & y & b' & Ha & _). destruct a'; discriminate Ha.
  - pose proof (reaches_pos _ st Hr) as Hpos.
    destruct (reaches_step_inv _ st st' Hr Hlt Hb)
      as (m & rest & _ & Hs & Hs' & Hne & He & Hg & ->).
    cbn [st_pos] in Hp. rewrite Hp, slice_from_app in Hs'. subst rest.
    assert (Ha : a = slice_to (a ++ b) (st_pos st) ++ group m).
    { rewrite <- (slice_to_end _ _ _ _ Hpos Hs), <- He, Hp. symmetry. apply slice_to_app. }
    rewrite Ha. apply unglued_by_class; [exact Hne| |]; intros z y Hz Hcz Hcy;
      destruct b as [|c b']; try exact I; intros ->;
      destruct Hg as [[_ (_ & Hall & Hmax)]|[[_ (_ & Hall & Hmax)]|[[_ (_ & Hall & Hmax)]
                     |[[_ (c & Hc & Hop)]|[_ (c & Hc & Hop)]]]]];
      try (pose proof (Forall_In_class _ _ _ Hall Hz) as Hzc);
      try (rewrite Hc in Hz; destruct Hz as [<-|[]]).
    + rewrite (space_not_lower z Hzc) in Hcz. discriminate.
    + congruence.
    + rewrite (digit_not_lower z Hzc) in Hcz. discriminate.
    + rewrite (operator_not_lower _ Hop) in Hcz. discriminate.
    + rewrite (delimiter_not_lower _ Hop) in Hcz. discriminate.
    + rewrite (space_not_digit z Hzc) in Hcz. discriminate.
    + rewrite (lower_not_digit z Hzc) in Hcz. discriminate.
    + congruence.
    + rewrite (operator_not_digit _ Hop) in Hcz. discriminate.
    + rewrite (delimiter_not_digit _ Hop) in Hcz. discriminate.
Qed.

Lemma split_within (a b a0 ws rest : str) :
  a ++ b = a0 ++ ws ++ rest ->
  (length a0 <= length a <= length a0 + length ws)%nat ->
  exists w1 w2, a = a0 ++ w1 /\ ws = w1 ++ w2 /\ b = w2 ++ rest.
Proof.
  intros He Hl. apply app_eq_app in He.
  destruct He as (l & [[Ha Hr]|[Ha Hr]]).
  - assert (Hll : (length l <= length ws)%nat)
      by (apply (f_equal (@length _)) in Ha; rewrite length_app in Ha; lia).
    apply app_eq_app in Hr. destruct Hr as (l2 & [[Hw Hb]|[Hw Hb]]).
    + exists l, l2. auto.
    + assert (l2 = []) as ->.
      { apply (f_equal (@length _)) in Hw. rewrite length_app in Hw.
        destruct l2; [reflexivity | cbn [length] in Hw; lia]. }
      rewrite app_nil_r in Hw. subst l. exists ws, []. cbn [app] in *.
      rewrite app_nil_r. auto.
  - assert (l = []) as ->.
    { apply (f_equal (@length _)) in Ha. rewrite length_app in Ha.
      destruct l; [reflexivity | cbn [length] in Ha; lia]. }
    rewrite app_nil_r in Ha. subst a0. cbn [app] in Hr.
    exists [], ws. rewrite app_nil_r. auto.
Qed.

(** At a gap the text splits without cutting a token, and what remains to
    be scanned from the state at the gap gives the tokens of the second
    part. *)
Lemma gap_split (a b : str) (st : State) :
  Reaches (a ++ b) st ->
  at_gap (a ++ b) st (len a) ->
  ~ glued a b
  /\ lex_at (slice_from (a ++ b) (st_pos st)) (st_line st, st_col st)
     = lex_at b (advance a (1, 1)).
Proof.
  intros Hr [Hp|(m & Hm & Hk & Hp)].
  - split; [exact (reaches_unglued a b st Hr Hp)|].
    rewrite (reaches_position _ st Hr), Hp, slice_from_app, slice_to_app.
    reflexivity.
  - pose proof (reaches_pos _ st Hr) as Hpos.
    unfold pattern_match in Hm. apply match_some in Hm.
    destruct Hm as (rest & Hs & Hne & He & Hg).
    rewrite Hk in Hg.
    destruct Hg as [[_ (_ & Hall & _)]|[[E _]|[[E _]|[[E _]|[E _]]]]];
      try discriminate E.
    pose proof (slice_to_from (a ++ b) (st_pos st)) as Hd. rewrite Hs in Hd.
    pose proof (len_slice_to (a ++ b) (st_pos st) Hpos) as Hl0.
    destruct (split_within a b (slice_to (a ++ b) (st_pos st)) (group m) rest
                (eq_sym Hd) ltac:(unfold len in *; lia))
      as (w1 & w2 & Ha & Hw & Hb).
    rewrite Hw in Hall. apply Forall_app in Hall. destruct Hall as [Hall1 Hall2].
    split.
    + destruct w1 as [|c w1].
      * rewrite app_nil_r in Ha. apply (reaches_unglued a b st Hr).
        apply (f_equal len) in Ha. lia.
      * rewrite Ha. apply unglued_by_class; [discriminate| |];
          intros z y Hz Hcz _; pose proof (Forall_In_class _ _ _ Hall1 Hz) as Hzc.
        -- rewrite (space_not_lower z Hzc) in Hcz. discriminate.
        -- rewrite (space_not_digit z Hzc) in Hcz. discriminate.
    + rewrite (reaches_position _ st Hr), Hs, Hw.
      remember (slice_to (a ++ b) (st_pos st)) as a0 eqn:Ea0. clear Ea0.
      rewrite Ha, Hb.
      rewrite (lex_skip_ws (w1 ++ w2) rest)
        by (apply Forall_app; split; assumption).
      rewrite (lex_skip_ws w2 rest) by assumption.
      rewrite !advance_advance. reflexivity.
Qed.

Lemma unglued_blank (a w b : str) :
  Forall (fun c => is_blank c = true) w ->
  ~ glued a b -> ~ glued a (w ++ b).
Proof.
  intros Hw Hg. destruct w as [|c w]; [exact Hg|].
  inversion Hw as [|? ? Hc _]; subst. apply blank_is_space in Hc.
  intros (a' & x & y & b' & _ & Hb & H). cbn [app] in Hb. injection Hb as <- _.
  destruct H as [[_ H]|[_ H]].
  - rewrite (space_not_lower c Hc) in H. discriminate.
  - rewrite (space_not_digit c Hc) in H. discriminate.
Qed.

(** C8. Take a text that tokenizes, split as [a ++ b] at an offset in the
    gap between two consecutive tokens, [st] being the loop state at that
    gap, so that [st_tokens st] are the tokens before the offset.  Inserting
    any run [w] of spaces, tabs and newlines there gives a text that
    tokenizes to as many tokens, with the same category and lexeme at every
    index; the tokens before the offset are unchanged, and only the line
    and column of the later ones may differ. *)
Theorem C8_whitespace_invisibility
  (a b w : str) (tokens : list Token) (st : State) :
  tokenize (a ++ b) = Some (Return tokens) ->
  Reaches (a ++ b) st ->
  at_gap (a ++ b) st (len a) ->
  Forall (fun c => is_blank c = true) w ->
  exists later later',
    tokens = st_tokens st ++ later
    /\ tokenize (a ++ w ++ b) = Some (Return (st_tokens st ++ later'))
    /\ map category_lexeme later' = map category_lexeme later
    /\ length (st_tokens st ++ later') = length tokens
    /\ map category_lexeme (st_tokens st ++ later') = map category_lexeme tokens.
Proof.
  intros Ht Hr Hgap Hw.
  destruct (gap_split a b st Hr Hgap) as [Hng Heq].
  pose proof Ht as Ht1. rewrite (reaches_lex _ st Hr), Heq in Ht1.
  apply prepend_return in Ht1. destruct Ht1 as (later & Hb & Htok).
  pose proof Ht as Ht2.
  rewrite tokenize_lex in Ht2. change (lex (a ++ b) 1 1) with (lex_at (a ++ b) (1, 1)) in Ht2.
  rewrite (lex_app (length a) a b (1, 1) (le_n _) Hng) in Ht2.
  destruct (lex_at a (1, 1)) as [[ta|e]|] eqn:Ha; try discriminate Ht2.
  rewrite Hb in Ht2. cbn [prepend] in Ht2. injection Ht2 as Ht2.
  assert (Hta : ta = st_tokens st).
  { rewrite Htok in Ht2. apply app_inv_tail in Ht2. exact Ht2. }
  subst ta.
  destruct (lex_shape (length b) b _ (advance w (advance a (1, 1))) later (le_n _) Hb)
    as (later' & Hb' & Hsh).
  exists later, later'. split; [exact Htok|].
  assert (Hnew : tokenize (a ++ w ++ b) = Some (Return (st_tokens st ++ later'))).
  { rewrite tokenize_lex.
    change (lex (a ++ w ++ b) 1 1) with (lex_at (a ++ w ++ b) (1, 1)).
    rewrite (lex_app (length a) a (w ++ b) (1, 1) (le_n _) (unglued_blank a w b Hw Hng)).
    rewrite Ha, lex_skip_ws, Hb'; [reflexivity|].
    eapply Forall_impl; [|exact Hw]. exact blank_is_space. }
  split; [exact Hnew|]. split; [exact Hsh|].
  assert (Hall : map category_lexeme (st_tokens st ++ later')
                 = map category_lexeme tokens)
    by (rewrite Htok, !map_app, Hsh; reflexivity).
  split; [|exact Hall].
  apply (f_equal (@length _)) in Hall. rewrite !length_map in Hall. exact Hall.
Qed.

(** A newline and a space inserted between "x" and "=1": the tokens keep
    their categories and lexemes, "x" keeps its position. *)
Lemma C8_witness :
  exists later later',
    [ mkToken "IDENTIFIER" (lit "x") 1 1;
      mkToken "OPERATOR" (lit "=") 1 2;
      mkToken "INTEGER" (lit "1") 1 3 ]
    = [mkToken "IDENTIFIER" (lit "x") 1 1] ++ later
    /\ tokenize (lit "x" ++ ([newline] ++ lit " ") ++ lit "=1")
       = Some (Return ([mkToken "IDENTIFIER" (lit "x") 1 1] ++ later'))
    /\ map category_lexeme later' = map category_lexeme later
    /\ length ([mkToken "IDENTIFIER" (lit "x") 1 1] ++ later') = 3%nat
    /\ map category_lexeme ([mkToken "IDENTIFIER" (lit "x") 1 1] ++ later')
       = [ ("IDENTIFIER", lit "x"); ("OPERATOR", lit "="); ("INTEGER", lit "1") ].
Proof.
  refine (C8_whitespace_invisibility (lit "x") (lit "=1") ([newline] ++ lit " ")
            [ mkToken "IDENTIFIER" (lit "x") 1 1;
              mkToken "OPERATOR" (lit "=") 1 2;
              mkToken "INTEGER" (lit "1") 1 3 ]
            (mkState 1 1 2 [mkToken "IDENTIFIER" (lit "x") 1 1])
            eq_refl _ (or_introl eq_refl) _).
  - apply (reaches_step _ initial); [apply reaches_initial | reflexivity | reflexivity].
  - repeat constructor.
Defined.

(** * Further properties of the scanner *)

(** ** An induction principle for the scan of a suffix *)

Lemma lex_at_nil (p : Z * Z) : lex_at [] p = Some (Return []).
Proof. reflexivity. Qed.

Lemma lex_at_ind (P : str -> Z * Z -> option Result -> Prop) :
  (forall p, P [] p (Some (Return []))) ->
  (forall c s p,
      unmatched c ->
      P (c :: s) p (Some (Raised (ValueError c (fst p) (snd p))))) ->
  (forall m rest p,
      match_alternatives master_pattern (group m ++ rest) 0 = Some m ->
      group m <> [] ->
      matches_group (lastgroup m) (group m) rest ->
      P rest (advance (group m) p) (lex_at rest (advance (group m) p)) ->
      P (group m ++ rest) p
        (prepend (emitted m (fst p) (snd p))
           (lex_at rest (advance (group m) p)))) ->
  forall s p, P s p (lex_at s p).
Proof.
  intros Hnil Hbad Hstep s.
  assert (H : forall n s, (length s <= n)%nat -> forall p, P s p (lex_at s p)).
  { clear s. induction n as [|n IH]; intros s Hn p.
    - destruct s; [apply Hnil | cbn [length] in Hn; lia].
    - destruct s as [|c s]; [apply Hnil|].
      rewrite lex_at_cons.
      destruct (match_alternatives master_pattern (c :: s) 0) as [m|] eqn:Hm.
      + pose proof Hm as Hm'. apply match_some in Hm'.
        destruct Hm' as (rest & Hs & Hne & _ & Hg).
        rewrite Hs in *. rewrite skipn_length_app.
        apply Hstep; try assumption. apply IH.
        rewrite length_app in Hn.
        destruct (group m); [congruence | cbn [length] in Hn; lia].
      + apply Hbad. apply (match_none (c :: s) 0) in Hm. exact Hm. }
  intros p. apply (H (length s)). apply le_n.
Qed.

Lemma unmatched_recognized (c : char) : unmatched c <-> recognized c = false.
Proof.
  unfold unmatched, recognized. rewrite !orb_false_iff. tauto.
Qed.

Lemma operator_not_space (c : char) : is_operator c = true -> is_space c = false.
Proof. class_arith. Qed.

Lemma delimiter_not_space (c : char) : is_delimiter c = true -> is_space c = false.
Proof. class_arith. Qed.

Lemma digit_not_space (c : char) : is_digit c = true -> is_space c = false.
Proof. class_arith. Qed.

(** The characters of a match belong to the class of its group. *)
Lemma matches_group_recognized (kind : string) (g rest : str) :
  matches_group kind g rest -> Forall (fun c => recognized c = true) g.
Proof.
  unfold recognized.
  intros [[_ (_ & H & _)]|[[_ (_ & H & _)]|[[_ (_ & H & _)]|[[_ (c & -> & H)]|[_ (c & -> & H)]]]]];
    try (eapply Forall_impl; [|exact H]; cbv beta; intros c Hc);
    try (constructor; [|constructor]);
    rewrite H || rewrite Hc; rewrite ?orb_true_r; reflexivity.
Qed.

Lemma matches_group_space (g rest : str) :
  matches_group "WHITESPACE" g rest -> Forall (fun c => is_space c = true) g.
Proof.
  intros [[_ (_ & H & _)]|[[E _]|[[E _]|[[E _]|[E _]]]]];
    (exact H || discriminate E).
Qed.

Lemma matches_group_nonspace (kind : string) (g rest : str) :
  matches_group kind g rest -> kind <> "WHITESPACE" ->
  Forall (fun c => is_space c = false) g.
Proof.
  intros [[E _]|[[_ (_ & H & _)]|[[_ (_ & H & _)]|[[_ (c & -> & H)]|[_ (c & -> & H)]]]]] Hk;
    [contradiction| | | |].
  - eapply Forall_impl; [|exact H]. exact lower_not_space.
  - eapply Forall_impl; [|exact H]. exact digit_not_space.
  - constructor; [|constructor]. exact (operator_not_space c H).
  - constructor; [|constructor]. exact (delimiter_not_space c H).
Qed.

Lemma count_nonspace (g : str) :
  Forall (fun c => is_space c = false) g -> count g newline = 0.
Proof.
  induction 1 as [|c g Hc _ IH]; cbn [count]; [reflexivity|].
  rewrite IH. destruct (N.eqb_spec c newline) as [->|]; [discriminate Hc | reflexivity].
Qed.

(** ** [_advance_position] composes *)

(** X1. [_advance_position] over the empty string changes nothing, and over
    [a ++ b] it is the advance over [a] followed by the advance over [b]
    from where that one ends. *)
Theorem X1_advance_position_composes :
  (forall line col : Z, _advance_position [] line col = (line, col))
  /\ (forall (a b : str) (line col : Z),
         _advance_position (a ++ b) line col =
         let '(line', col') := _advance_position a line col in
         _advance_position b line' col').
Proof. split; [exact advance_nil | exact advance_app]. Qed.

(** ** Positions are those of the source *)

(** From line 1, column 1 the advance over [pre] gives the line and column
    of the character that follows [pre]. *)
Lemma advance_origin (pre : str) :
  advance pre (1, 1) = (1 + count pre newline, len pre - rfind pre newline).
Proof.
  unfold advance, _advance_position. cbn [fst snd].
  destruct (Z.eqb_spec (count pre newline) 0) as [E|E].
  - rewrite E, (rfind_absent pre newline E). f_equal. lia.
  - f_equal. lia.
Qed.

Lemma reaches_tokens_positions (text : str) (st : State) :
  Reaches text st ->
  Forall (fun t =>
            exists pre post,
              text = pre ++ lexeme t ++ post
              /\ line t = 1 + count pre newline
              /\ col t = len pre - rfind pre newline)
    (st_tokens st).
Proof.
  induction 1 as [|st st' Hr IH Hlt Hb]; [constructor|].
  pose proof (reaches_position text st Hr) as Hpos.
  destruct (reaches_step_inv text st st' Hr Hlt Hb)
    as (m & rest & _ & Hs & _ & _ & _ & _ & ->).
  cbn [st_tokens]. apply Forall_app. split; [exact IH|].
  unfold emitted. destruct (lastgroup m =? "WHITESPACE")%string; constructor;
    [|constructor].
  cbn [lexeme line col]. exists (slice_to text (st_pos st)), rest.
  rewrite advance_origin in Hpos. apply pair_equal_spec in Hpos.
  destruct Hpos as [Hl Hc]. split; [|split; assumption].
  rewrite <- Hs. symmetry. apply slice_to_from.
Qed.

(** X2. Every token [tokenize] returns carries the true position of its
    lexeme: the lexeme occurs in the text after some [pre], the line is 1
    plus the number of newlines of [pre], and the column is the number of
    characters of [pre] after its last newline, plus 1. *)
Theorem X2_token_positions_are_source_positions
  (text : str) (tokens : list Token) (t : Token) :
  tokenize text = Some (Return tokens) ->
  In t tokens ->
  exists pre post,
    text = pre ++ lexeme t ++ post
    /\ line t = 1 + count pre newline
    /\ col t = len pre - rfind pre newline.
Proof.
  intros Ht Hin. destruct (tokenize_return text tokens Ht) as (st & Hr & _ & <-).
  pose proof (reaches_tokens_positions text st Hr) as H.
  rewrite Forall_forall in H. exact (H t Hin).
Qed.

(** The second token of "a", newline, "bc d". *)
Lemma X2_witness :
  exists pre post,
    lit "a" ++ [newline] ++ lit "bc d" = pre ++ lit "d" ++ post
    /\ 2 = 1 + count pre newline
    /\ 4 = len pre - rfind pre newline.
Proof.
  refine (X2_token_positions_are_source_positions
            (lit "a" ++ [newline] ++ lit "bc d")
            [ mkToken "IDENTIFIER" (lit "a") 1 1;
              mkToken "IDENTIFIER" (lit "bc") 2 1;
              mkToken "IDENTIFIER" (lit "d") 2 4 ]
            (mkToken "IDENTIFIER" (lit "d") 2 4) eq_refl _).
  right. right. left. reflexivity.
Defined.

(** ** Which texts tokenize *)

Lemma lex_succeeds (s : str) (p : Z * Z) :
  Forall (fun c => recognized c = true) s ->
  exists tokens, lex_at s p = Some (Return tokens).
Proof.
  apply (lex_at_ind
           (fun s p r => Forall (fun c => recognized c = true) s ->
                         exists tokens, r = Some (Return tokens))).
  - eauto.
  - intros c s' p' Hu H. inversion H as [|? ? Hc _]; subst.
    apply unmatched_recognized in Hu. congruence.
  - intros m rest p' _ _ _ IH H. apply Forall_app in H. destruct H as [_ H].
    destruct (IH H) as (T & ->). cbn [prepend]. eauto.
Qed.

Lemma lex_return_recognized (s : str) (p : Z * Z) :
  forall tokens, lex_at s p = Some (Return tokens) ->
                 Forall (fun c => recognized c = true) s.
Proof.
  apply (lex_at_ind
           (fun s p r => forall tokens, r = Some (Return tokens) ->
                                        Forall (fun c => recognized c = true) s)).
  - constructor.
  - discriminate.
  - intros m rest p' _ _ Hg IH T H. apply prepend_return in H.
    destruct H as (T0 & H0 & _). apply Forall_app. split.
    + exact (matches_group_recognized _ _ _ Hg).
    + exact (IH T0 H0).
Qed.

(** X3. [tokenize] returns tokens exactly for the texts all of whose
    characters are whitespace, lowercase letters, digits, operators or
    delimiters. *)
Theorem X3_tokenize_succeeds_iff_all_recognized (text : str) :
  (exists tokens, tokenize text = Some (Return tokens))
  <-> Forall (fun c => recognized c = true) text.
Proof.
  rewrite tokenize_lex. change (lex text 1 1) with (lex_at text (1, 1)). split.
  - intros (T & H). exact (lex_return_recognized text (1, 1) T H).
  - apply lex_succeeds.
Qed.

Lemma unglued_unmatched (a : str) (c : char) (post : str) :
  recognized c = false -> ~ glued a (c :: post).
Proof.
  intros Hc (a' & x & y & b' & _ & Hb & H). injection Hb as <- _.
  unfold recognized in Hc. rewrite !orb_false_iff in Hc.
  destruct H as [[_ H]|[_ H]]; intuition congruence.
Qed.

(** The error raised at the first character outside the five classes. *)
Lemma tokenize_first_unrecognized (pre : str) (c : char) (post : str) :
  Forall (fun x => recognized x = true) pre ->
  recognized c = false ->
  tokenize (pre ++ c :: post) =
  Some (Raised (ValueError c (1 + count pre newline)
                  (len pre - rfind pre newline))).
Proof.
  intros Hpre Hc. rewrite tokenize_lex.
  change (lex (pre ++ c :: post) 1 1) with (lex_at (pre ++ c :: post) (1, 1)).
  rewrite (lex_app (length pre) pre (c :: post) (1, 1) (le_n _)
             (unglued_unmatched pre c post Hc)).
  destruct (lex_succeeds pre (1, 1) Hpre) as (T & ->).
  rewrite lex_at_cons.
  assert (Hn : match_alternatives master_pattern (c :: post) 0 = None)
    by (apply match_none, unmatched_recognized; exact Hc).
  rewrite Hn, advance_origin. reflexivity.
Qed.

(** X4. The error is raised at the first character outside the five
    classes, whatever follows it, and reports that character with its true
    line and column: 1 plus the number of newlines before it, and 1 plus the
    number of characters between the last of them and it. *)
Theorem X4_error_at_first_unrecognized (pre : str) (c : char) (post : str) :
  Forall (fun x => recognized x = true) pre ->
  recognized c = false ->
  tokenize (pre ++ c :: post) =
  Some (Raised (ValueError c (1 + count pre newline)
                  (len pre - rfind pre newline))).
Proof. exact (tokenize_first_unrecognized pre c post). Qed.

(** 'A' on the second line of "x =", newline, " A;". *)
Lemma X4_witness :
  tokenize (lit "x =" ++ [newline] ++ lit " A;") =
  Some (Raised (ValueError (ord "A") 2 2)).
Proof.
  refine (X4_error_at_first_unrecognized (lit "x =" ++ [newline] ++ lit " ")
            (ord "A") (lit ";") _ eq_refl).
  repeat constructor.
Defined.

(** ** Tokenizing a concatenation *)

Lemma lex_at_step (m : Match) (rest : str) (p : Z * Z) :
  match_alternatives master_pattern (group m ++ rest) 0 = Some m ->
  group m <> [] ->
  lex_at (group m ++ rest) p =
  prepend (emitted m (fst p) (snd p)) (lex_at rest (advance (group m) p)).
Proof.
  intros Hm Hne. destruct (group m ++ rest) as [|c s] eqn:E.
  - destruct (group m); [congruence | discriminate E].
  - rewrite lex_at_cons, Hm, <- E, skipn_length_app. reflexivity.
Qed.

Lemma advance_line (g : str) (p : Z * Z) : fst p <= fst (advance g p).
Proof.
  unfold advance, _advance_position. pose proof (count_nonneg g newline).
  destruct (count g newline =? 0); cbn [fst]; lia.
Qed.

Lemma advance_relocate (origin : Z * Z) (g : str) (p : Z * Z) :
  1 <= fst p ->
  advance g (relocate origin (fst p) (snd p)) =
  relocate origin (fst (advance g p)) (snd (advance g p)).
Proof.
  intros Hp. unfold advance, _advance_position, relocate. cbn [fst snd].
  pose proof (count_nonneg g newline).
  destruct (Z.eqb_spec (count g newline) 0) as [E|E]; cbn [fst snd].
  - destruct (Z.eqb_spec (fst p) 1); f_equal; lia.
  - destruct (Z.eqb_spec (fst p + count g newline) 1); [lia|]. f_equal. lia.
Qed.

Lemma emitted_relocate (origin : Z * Z) (m : Match) (p : Z * Z) :
  emitted m (fst (relocate origin (fst p) (snd p)))
    (snd (relocate origin (fst p) (snd p)))
  = map (relocate_token origin) (emitted m (fst p) (snd p)).
Proof.
  unfold emitted. destruct (lastgroup m =? "WHITESPACE")%string; reflexivity.
Qed.

Lemma relocate_prepend (origin : Z * Z) (tokens : list Token) (r : option Result) :
  relocate_result origin (prepend tokens r)
  = prepend (map (relocate_token origin) tokens) (relocate_result origin r).
Proof.
  destruct r as [[T|[c l k|kind]]|]; cbn [prepend relocate_result];
    rewrite ?map_app; reflexivity.
Qed.

(** Scanning from another start position relocates the result. *)
Lemma lex_relocate (origin : Z * Z) (s : str) (p : Z * Z) :
  1 <= fst p ->
  lex_at s (relocate origin (fst p) (snd p)) = relocate_result origin (lex_at s p).
Proof.
  apply (lex_at_ind
           (fun s p r => 1 <= fst p ->
                         lex_at s (relocate origin (fst p) (snd p))
                         = relocate_result origin r)).
  - reflexivity.
  - intros c s' p' Hu _. rewrite lex_at_cons.
    assert (Hn : match_alternatives master_pattern (c :: s') 0 = None)
      by (apply match_none; exact Hu).
    rewrite Hn. reflexivity.
  - intros m rest p' Hm Hne _ IH Hp.
    rewrite (lex_at_step m rest _ Hm Hne), relocate_prepend.
    rewrite advance_relocate by exact Hp.
    rewrite IH by (pose proof (advance_line (group m) p'); lia).
    rewrite emitted_relocate. reflexivity.
Qed.

Lemma lex_from (origin : Z * Z) (s : str) :
  lex_at s origin = relocate_result origin (tokenize s).
Proof.
  rewrite tokenize_lex. change (lex s 1 1) with (lex_at s (1, 1)).
  rewrite <- lex_relocate by (cbn; lia).
  unfold relocate. cbn [fst snd]. change (1 =? 1) with true. cbv iota.
  destruct origin as [l c]. cbn [fst snd]. f_equal. f_equal; lia.
Qed.

(** The tokens of a concatenation that cuts no token. *)
Lemma tokenize_app (a b : str) (ta tb : list Token) :
  ~ glued a b ->
  tokenize a = Some (Return ta) ->
  tokenize b = Some (Return tb) ->
  tokenize (a ++ b) =
  Some (Return
          (ta ++ map (relocate_token (1 + count a newline,
                                      len a - rfind a newline)) tb)).
Proof.
  intros Hg Ha Hb. rewrite tokenize_lex.
  change (lex (a ++ b) 1 1) with (lex_at (a ++ b) (1, 1)).
  rewrite (lex_app (length a) a b (1, 1) (le_n _) Hg).
  rewrite tokenize_lex in Ha. change (lex a 1 1) with (lex_at a (1, 1)) in Ha.
  rewrite Ha, lex_from, Hb, advance_origin. reflexivity.
Qed.

(** X5. Where the last character of [a] and the first of [b] are not two
    letters and not two digits, the tokens of [a ++ b] are the tokens of [a]
    followed by the tokens of [b] relocated to where [a] ends: their lines
    grow by the number of newlines of [a], and on the first line of [b]
    their columns grow by the number of characters of the last line of [a]. *)
Theorem X5_tokenize_concatenation (a b : str) (ta tb : list Token) :
  ~ glued a b ->
  tokenize a = Some (Return ta) ->
  tokenize b = Some (Return tb) ->
  tokenize (a ++ b) =
  Some (Return
          (ta ++ map (relocate_token (1 + count a newline,
                                      len a - rfind a newline)) tb)).
Proof. exact (tokenize_app a b ta tb). Qed.

(** "x=" followed by "1+y": no letter or digit run is cut at the seam. *)
Lemma X5_witness :
  tokenize (lit "x=" ++ lit "1+y") =
  Some (Return
          ([ mkToken "IDENTIFIER" (lit "x") 1 1; mkToken "OPERATOR" (lit "=") 1 2 ]
             ++ map (relocate_token (1, 3))
                  [ mkToken "INTEGER" (lit "1") 1 1;
                    mkToken "OPERATOR" (lit "+") 1 2;
                    mkToken "IDENTIFIER" (lit "y") 1 3 ])).
Proof.
  refine (X5_tokenize_concatenation (lit "x=") (lit "1+y") _ _ _ eq_refl eq_refl).
  intros (a' & x & y & b' & Ha & Hb & H).
  destruct a' as [|? [|? a']]; try discriminate Ha.
  - injection Hb as <- _. injection Ha as _ <-.
    destruct H as [[H _]|[H _]]; discriminate H.
  - injection Ha as _ _ Ha. destruct a'; discriminate Ha.
Defined.

(** ** Whitespace around a text *)

Lemma unglued_spaces (a w : str) :
  Forall (fun c => is_space c = true) w -> ~ glued a w.
Proof.
  intros Hw (a' & x & y & b' & _ & -> & H). inversion Hw as [|? ? Hy _]; subst.
  destruct H as [[_ H]|[_ H]].
  - rewrite (space_not_lower y Hy) in H. discriminate.
  - rewrite (space_not_digit y Hy) in H. discriminate.
Qed.

Lemma lex_spaces (w : str) (p : Z * Z) :
  Forall (fun c => is_space c = true) w -> lex_at w p = Some (Return []).
Proof.
  intros Hw. rewrite <- (app_nil_r w), (lex_skip_ws w [] p Hw). reflexivity.
Qed.

(** X6. A text of whitespace only gives no token, and whitespace put before
    and after a text that tokenizes only relocates its tokens: same
    categories and lexemes, positions moved to where the leading whitespace
    ends. *)
Theorem X6_surrounding_whitespace (w text w' : str) (tokens : list Token) :
  Forall (fun c => is_space c = true) w ->
  Forall (fun c => is_space c = true) w' ->
  tokenize text = Some (Return tokens) ->
  tokenize w = Some (Return [])
  /\ tokenize (w ++ text ++ w') =
     Some (Return (map (relocate_token (1 + count w newline,
                                        len w - rfind w newline)) tokens)).
Proof.
  intros Hw Hw' Ht. rewrite !tokenize_lex.
  change (lex w 1 1) with (lex_at w (1, 1)).
  change (lex (w ++ text ++ w') 1 1) with (lex_at (w ++ text ++ w') (1, 1)).
  split; [exact (lex_spaces w (1, 1) Hw)|].
  rewrite (lex_skip_ws w (text ++ w') (1, 1) Hw).
  rewrite (lex_app (length text) text w' _ (le_n _) (unglued_spaces text w' Hw')).
  rewrite lex_from, Ht, advance_origin. cbn [relocate_result].
  rewrite (lex_spaces w' _ Hw'). cbn [prepend]. rewrite app_nil_r. reflexivity.
Qed.

(** "x y" between a newline and a tab on the left and a space on the right. *)
Lemma X6_witness :
  tokenize ([newline; 9%N] ++ lit "x y" ++ lit " ") =
  Some (Return (map (relocate_token (2, 2))
                  [ mkToken "IDENTIFIER" (lit "x") 1 1;
                    mkToken "IDENTIFIER" (lit "y") 1 3 ])).
Proof.
  refine (proj2 (X6_surrounding_whitespace [newline; 9%N] (lit "x y") (lit " ")
                   _ _ _ eq_refl));
    repeat constructor.
Defined.

(** ** Tokens do not overlap *)

Lemma reaches_disjoint (text : str) (st : State) :
  Reaches text st ->
  StronglySorted ends_before (st_tokens st)
  /\ Forall (fun t => line t < st_line st
                      \/ (line t = st_line st
                          /\ col t + len (lexeme t) <= st_col st))
       (st_tokens st).
Proof.
  induction 1 as [|st st' Hr [IHs IHc] Hlt Hb]; [split; constructor|].
  destruct (reaches_step_inv text st st' Hr Hlt Hb)
    as (m & rest & _ & _ & _ & Hne & _ & Hg & ->).
  cbn [st_tokens st_line st_col].
  destruct (_advance_position (group m) (st_line st) (st_col st)) as [l' c'] eqn:Ea.
  cbn [fst snd]. pose proof (advance_increases _ _ _ _ _ Hne Ea) as Hinc.
  assert (Hold : Forall (fun t => line t < l' \/ (line t = l' /\ col t + len (lexeme t) <= c'))
                   (st_tokens st)).
  { eapply Forall_impl; [|exact IHc]. cbv beta. intros t Ht. lia. }
  unfold emitted. destruct (lastgroup m =? "WHITESPACE")%string eqn:Ek.
  - rewrite app_nil_r. split; assumption.
  - apply String.eqb_neq in Ek.
    pose proof (count_nonspace _ (matches_group_nonspace _ _ _ Hg Ek)) as Hnl.
    unfold _advance_position in Ea. rewrite Hnl in Ea. cbn [Z.eqb] in Ea.
    apply pair_equal_spec in Ea. destruct Ea as [<- <-]. split.
    + apply StronglySorted_snoc; [exact IHs|]. exact IHc.
    + apply Forall_app. split; [exact Hold|]. constructor; [|constructor].
      cbn [line col lexeme]. lia.
Qed.

(** X7. Consecutive tokens returned by [tokenize] do not overlap: the next
    token is on a later line, or on the same line at a column not before
    the end of the previous lexeme. *)
Theorem X7_consecutive_tokens_do_not_overlap
  (text : str) (tokens : list Token) (i : nat) (t1 t2 : Token) :
  tokenize text = Some (Return tokens) ->
  nth_error tokens i = Some t1 ->
  nth_error tokens (S i) = Some t2 ->
  line t1 < line t2
  \/ (line t1 = line t2 /\ col t1 + len (lexeme t1) <= col t2).
Proof.
  intros Ht H1 H2.
  destruct (tokenize_return text tokens Ht) as (st & Hr & _ & <-).
  destruct (reaches_disjoint text st Hr) as [Hs _].
  exact (StronglySorted_adjacent _ _ Hs i t1 t2 H1 H2).
Qed.

(** "abc" and "=" in "abc=1": the operator starts where the identifier ends. *)
Lemma X7_witness :
  let t1 := mkToken "IDENTIFIER" (lit "abc") 1 1 in
  let t2 := mkToken "OPERATOR" (lit "=") 1 4 in
  line t1 < line t2
  \/ (line t1 = line t2 /\ col t1 + len (lexeme t1) <= col t2).
Proof.
  exact (X7_consecutive_tokens_do_not_overlap (lit "abc=1")
           [ mkToken "IDENTIFIER" (lit "abc") 1 1;
             mkToken "OPERATOR" (lit "=") 1 4;
             mkToken "INTEGER" (lit "1") 1 5 ]
           0%nat
           (mkToken "IDENTIFIER" (lit "abc") 1 1)
           (mkToken "OPERATOR" (lit "=") 1 4)
           eq_refl eq_refl eq_refl).
Defined.

(** ** The lexemes are the text without its whitespace *)

Lemma filter_all (f : char -> bool) (g : str) :
  Forall (fun c => f c = true) g -> filter f g = g.
Proof.
  induction 1 as [|c g Hc _ IH]; cbn [filter]; [reflexivity|].
  rewrite Hc, IH. reflexivity.
Qed.

Lemma filter_none (f : char -> bool) (g : str) :
  Forall (fun c => f c = false) g -> filter f g = [].
Proof.
  induction 1 as [|c g Hc _ IH]; cbn [filter]; [reflexivity|].
  rewrite Hc, IH. reflexivity.
Qed.

Lemma lex_lexemes (s : str) (p : Z * Z) :
  forall tokens,
    lex_at s p = Some (Return tokens) ->
    concat (map lexeme tokens) = filter (fun c => negb (is_space c)) s.
Proof.
  apply (lex_at_ind
           (fun s p r => forall tokens,
                r = Some (Return tokens) ->
                concat (map lexeme tokens) = filter (fun c => negb (is_space c)) s)).
  - intros _ T [= <-]. reflexivity.
  - discriminate.
  - intros m rest p' _ _ Hg IH T H. apply prepend_return in H.
    destruct H as (T0 & H0 & ->).
    rewrite map_app, concat_app, (IH T0 H0), filter_app. f_equal.
    unfold emitted. destruct (lastgroup m =? "WHITESPACE")%string eqn:Ek.
    + apply String.eqb_eq in Ek. rewrite Ek in Hg.
      cbn [map concat]. symmetry. apply filter_none.
      eapply Forall_impl; [|exact (matches_group_space _ _ Hg)].
      cbv beta. intros c ->. reflexivity.
    + apply String.eqb_neq in Ek. cbn [map concat lexeme]. rewrite app_nil_r.
      symmetry. apply filter_all.
      eapply Forall_impl; [|exact (matches_group_nonspace _ _ _ Hg Ek)].
      cbv beta. intros c ->. reflexivity.
Qed.

(** X8. The lexemes of the returned tokens, concatenated in order, are the
    text with its whitespace characters removed. *)
Theorem X8_lexemes_are_text_without_whitespace (text : str) (tokens : list Token) :
  tokenize text = Some (Return tokens) ->
  concat (map lexeme tokens) = filter (fun c => negb (is_space c)) text.
Proof.
  rewrite tokenize_lex. change (lex text 1 1) with (lex_at text (1, 1)).
  apply lex_lexemes.
Qed.

(** "if x", newline, "= 1" loses its two spaces and its newline. *)
Lemma X8_witness :
  concat (map lexeme [ mkToken "KEYWORD" (lit "if") 1 1;
                       mkToken "IDENTIFIER" (lit "x") 1 4;
                       mkToken "OPERATOR" (lit "=") 2 1;
                       mkToken "INTEGER" (lit "1") 2 3 ])
  = filter (fun c => negb (is_space c)) (lit "if x" ++ [newline] ++ lit "= 1").
Proof.
  apply (X8_lexemes_are_text_without_whitespace
           (lit "if x" ++ [newline] ++ lit "= 1")).
  vm_compute. reflexivity.
Defined.

(** ** Texts of one or two lexemes *)

Lemma delimiter_not_operator (c : char) : is_delimiter c = true -> is_operator c = false.
Proof. class_arith. Qed.

(** A text that is one non-whitespace match gives one token. *)
Lemma tokenize_single (kind : string) (g : str) :
  match_alternatives master_pattern g 0 = Some (mkMatch kind g (0 + len g)) ->
  g <> [] ->
  kind <> "WHITESPACE" ->
  tokenize g = Some (Return [mkToken (token_type_of kind g) g 1 1]).
Proof.
  intros Hm Hne Hk. rewrite tokenize_lex. change (lex g 1 1) with (lex_at g (1, 1)).
  pose proof (lex_at_step (mkMatch kind g (0 + len g)) [] (1, 1)) as Hstep.
  cbn [group] in Hstep. rewrite app_nil_r in Hstep.
  rewrite (Hstep Hm Hne), lex_at_nil. unfold emitted. cbn [lastgroup group fst snd].
  apply String.eqb_neq in Hk. rewrite Hk. reflexivity.
Qed.

Lemma tokenize_digits (d : str) :
  d <> [] ->
  Forall (fun c => is_digit c = true) d ->
  tokenize d = Some (Return [mkToken "INTEGER" d 1 1]).
Proof.
  intros Hne Hd. apply (tokenize_single "INTEGER" d); [|exact Hne|discriminate].
  rewrite match_master. destruct d as [|c d'] eqn:E; [congruence|].
  assert (Hc : is_digit c = true) by (inversion Hd; assumption).
  rewrite <- E in *.
  rewrite (digit_not_space c Hc), (digit_not_lower c Hc), Hc.
  rewrite (span_whole is_digit d Hd). reflexivity.
Qed.

(** X9. A non-empty run of digits, alone, is one Integer token; one
    operator character or one delimiter character, alone, is one token of
    its category. *)
Theorem X9_single_lexeme_texts :
  (forall d : str,
      d <> [] ->
      Forall (fun c => is_digit c = true) d ->
      tokenize d = Some (Return [mkToken "INTEGER" d 1 1]))
  /\ (forall c : char,
         is_operator c = true ->
         tokenize [c] = Some (Return [mkToken "OPERATOR" [c] 1 1]))
  /\ (forall c : char,
         is_delimiter c = true ->
         tokenize [c] = Some (Return [mkToken "DELIMITER" [c] 1 1])).
Proof.
  split; [exact tokenize_digits|]. split; intros c Hc.
  - apply (tokenize_single "OPERATOR" [c]); [|discriminate|discriminate].
    rewrite match_master, (operator_not_space c Hc), (operator_not_lower c Hc),
      (operator_not_digit c Hc), Hc. reflexivity.
  - apply (tokenize_single "DELIMITER" [c]); [|discriminate|discriminate].
    rewrite match_master, (delimiter_not_space c Hc), (delimiter_not_lower c Hc),
      (delimiter_not_digit c Hc), (delimiter_not_operator c Hc), Hc. reflexivity.
Qed.

(** "007", "*" and ";". *)
Lemma X9_witness :
  tokenize (lit "007") = Some (Return [mkToken "INTEGER" (lit "007") 1 1])
  /\ tokenize (lit "*") = Some (Return [mkToken "OPERATOR" (lit "*") 1 1])
  /\ tokenize (lit ";") = Some (Return [mkToken "DELIMITER" (lit ";") 1 1]).
Proof.
  split; [|split].
  - apply (proj1 X9_single_lexeme_texts (lit "007")); [discriminate|].
    repeat constructor.
  - exact (proj1 (proj2 X9_single_lexeme_texts) (ord "*") eq_refl).
  - exact (proj2 (proj2 X9_single_lexeme_texts) (ord ";") eq_refl).
Defined.

Lemma unglued_lower_digit (s d : str) :
  Forall (fun c => is_lower c = true) s ->
  Forall (fun c => is_digit c = true) d ->
  ~ glued s d /\ ~ glued d s.
Proof.
  intros Hs Hd. split; intros (a' & x & y & b' & Ha & Hb & H); subst.
  - apply Forall_last in Hs. inversion Hd as [|? ? Hy _]; subst.
    destruct H as [[_ H]|[H _]].
    + rewrite (digit_not_lower y Hy) in H. discriminate.
    + rewrite (lower_not_digit x Hs) in H. discriminate.
  - apply Forall_last in Hd. inversion Hs as [|? ? Hy _]; subst.
    destruct H as [[H _]|[_ H]].
    + rewrite (digit_not_lower x Hd) in H. discriminate.
    + rewrite (lower_not_digit y Hy) in H. discriminate.
Qed.

Lemma one_line_origin (g : str) :
  Forall (fun c => is_space c = false) g ->
  (1 + count g newline, len g - rfind g newline) = (1, 1 + len g).
Proof.
  intros Hg. pose proof (count_nonspace g Hg) as Hc.
  rewrite Hc, (rfind_absent g newline Hc). f_equal. lia.
Qed.

(** X10. Letters and digits need no separator: a run of lowercase letters
    directly followed by a run of digits is a word token (Keyword or
    Identifier) followed by an Integer token, and a run of digits directly
    followed by letters is an Integer followed by a word; no error is
    raised and the second token starts where the first ends. *)
Theorem X10_letters_next_to_digits (s d : str) :
  s <> [] -> Forall (fun c => is_lower c = true) s ->
  d <> [] -> Forall (fun c => is_digit c = true) d ->
  tokenize (s ++ d) =
  Some (Return [ mkToken (if is_keyword s then "KEYWORD" else "IDENTIFIER") s 1 1;
                 mkToken "INTEGER" d 1 (1 + len s) ])
  /\ tokenize (d ++ s) =
     Some (Return [ mkToken "INTEGER" d 1 1;
                    mkToken (if is_keyword s then "KEYWORD" else "IDENTIFIER")
                      s 1 (1 + len d) ]).
Proof.
  intros Hs Hl Hd Hg. destruct (unglued_lower_digit s d Hl Hg) as [H1 H2].
  pose proof (tokenize_lowercase s Hs Hl) as Ts.
  pose proof (tokenize_digits d Hd Hg) as Td.
  split.
  - rewrite (tokenize_app s d _ _ H1 Ts Td).
    rewrite one_line_origin
      by (eapply Forall_impl; [|exact Hl]; exact lower_not_space).
    cbn [map app]. unfold relocate_token, relocate. cbn [type lexeme line col fst snd].
    change (1 =? 1) with true. cbv iota.
    replace (1 + (1 + len s) - 1) with (1 + len s) by lia. reflexivity.
  - rewrite (tokenize_app d s _ _ H2 Td Ts).
    rewrite one_line_origin
      by (eapply Forall_impl; [|exact Hg]; exact digit_not_space).
    cbn [map app]. unfold relocate_token, relocate. cbn [type lexeme line col fst snd].
    change (1 =? 1) with true. cbv iota.
    replace (1 + (1 + len d) - 1) with (1 + len d) by lia. reflexivity.
Qed.

(** "if" next to "42", both ways round. *)
Lemma X10_witness :
  tokenize (lit "if" ++ lit "42") =
  Some (Return [ mkToken "KEYWORD" (lit "if") 1 1;
                 mkToken "INTEGER" (lit "42") 1 3 ])
  /\ tokenize (lit "42" ++ lit "if") =
     Some (Return [ mkToken "INTEGER" (lit "42") 1 1;
                    mkToken "KEYWORD" (lit "if") 1 3 ]).
Proof.
  refine (X10_letters_next_to_digits (lit "if") (lit "42") _ _ _ _);
    try discriminate; repeat constructor.
Defined.

(** * Properties of the presentation and of the command line *)

(** ** Padding and joining *)

Lemma len_repeat (c : char) (n : nat) : len (repeat c n) = Z.of_nat n.
Proof. unfold len. rewrite repeat_length. reflexivity. Qed.

Lemma len_ljust (s : str) (width : Z) : len (ljust s width) = Z.max width (len s).
Proof. unfold ljust. rewrite len_app, len_repeat. pose proof (len_nonneg s). lia. Qed.

Lemma count_repeat_space (n : nat) : count (repeat space n) newline = 0.
Proof. induction n as [|n IH]; cbn [repeat count]; [reflexivity | rewrite IH; reflexivity]. Qed.

Lemma count_ljust (s : str) (width : Z) :
  count (ljust s width) newline = count s newline.
Proof. unfold ljust. rewrite count_app, count_repeat_space. lia. Qed.

Lemma join_cons (sep l : str) (lines : list str) :
  lines <> [] -> join sep (l :: lines) = l ++ sep ++ join sep lines.
Proof. destruct lines; [congruence | reflexivity]. Qed.

(** Joining lines that contain no newline gives one newline less than
    lines. *)
Lemma count_join (lines : list str) :
  lines <> [] ->
  Forall (fun l => count l newline = 0) lines ->
  count (join [newline] lines) newline = Z.of_nat (length lines) - 1.
Proof.
  induction lines as [|l lines IH]; intros Hne Hall; [congruence|].
  inversion Hall as [|? ? Hl Hrest]; subst.
  destruct lines as [|l' lines].
  - cbn [join length]. rewrite Hl. reflexivity.
  - rewrite join_cons by discriminate. rewrite !count_app, Hl.
    rewrite IH by (discriminate || assumption).
    cbn [count length]. change (N.eqb newline newline) with true. lia.
Qed.

Lemma fold_left_append {A : Type} (f : A -> str) (l : list A) (init : list str) :
  fold_left (fun lines t => lines ++ [f t]) l init = init ++ map f l.
Proof.
  revert init. induction l as [|a l IH]; intros init; cbn [fold_left map].
  - symmetry. apply app_nil_r.
  - rewrite IH, <- app_assoc. reflexivity.
Qed.

(** ** Decimal numerals *)

Lemma repr_uint_chars (d : Decimal.uint) :
  Forall (fun c => is_digit c = true) (lit (NilEmpty.string_of_uint d)).
Proof.
  induction d; cbn [NilEmpty.string_of_uint]; unfold lit in *;
    cbn [list_ascii_of_string map]; constructor; (reflexivity || assumption).
Qed.

(** A numeral is made of digits, after a minus sign if negative. *)
Lemma repr_chars (n : Z) :
  Forall (fun c => is_digit c = true \/ c = ord "-") (repr n).
Proof.
  assert (Hu : forall d, Forall (fun c => is_digit c = true \/ c = ord "-")
                           (lit (NilZero.string_of_uint d))).
  { intros d. eapply Forall_impl; [intros c Hc; left; exact Hc|].
    destruct d; try apply (repr_uint_chars (_ _)). repeat constructor. }
  unfold repr. destruct (Z.to_int n) as [d|d]; cbn [NilZero.string_of_int].
  - apply Hu.
  - unfold lit. cbn [list_ascii_of_string map]. constructor; [right; reflexivity|].
    apply Hu.
Qed.

Lemma count_absent (s : str) (ch : char) :
  Forall (fun c => c <> ch) s -> count s ch = 0.
Proof.
  induction 1 as [|c s Hc _ IH]; cbn [count]; [reflexivity|].
  rewrite IH. destruct (N.eqb_spec c ch); [contradiction | reflexivity].
Qed.

Lemma repr_no (ch : char) (n : Z) :
  is_digit ch = false -> ch <> ord "-" -> Forall (fun c => c <> ch) (repr n).
Proof.
  intros Hd Hm. eapply Forall_impl; [|exact (repr_chars n)]. cbv beta.
  intros c [Hc|Hc] ->; congruence.
Qed.

Lemma count_repr (n : Z) : count (repr n) newline = 0.
Proof. apply count_absent, repr_no; [reflexivity | discriminate]. Qed.

(** ** The tokens of the scanner in the table *)

Lemma emitted_plain (m : Match) (rest : str) (line col : Z) :
  matches_group (lastgroup m) (group m) rest ->
  Forall plain (emitted m line col).
Proof.
  intros Hg. unfold emitted.
  destruct (lastgroup m =? "WHITESPACE")%string eqn:Ek; constructor; [|constructor].
  apply String.eqb_neq in Ek. unfold plain. cbn [lexeme type]. split.
  - exact (count_nonspace _ (matches_group_nonspace _ _ _ Hg Ek)).
  - unfold token_type_of.
    destruct Hg as [[E _]|[[E _]|[[E _]|[[E _]|[E _]]]]]; rewrite E in *;
      try contradiction; cbn [String.eqb Ascii.eqb Bool.eqb]; cbv iota;
      try destruct (is_keyword (group m)); split; (reflexivity || discriminate).
Qed.

Lemma reaches_plain (text : str) (st : State) :
  Reaches text st -> Forall plain (st_tokens st).
Proof.
  induction 1 as [|st st' Hr IH Hlt Hb]; [constructor|].
  destruct (reaches_step_inv text st st' Hr Hlt Hb)
    as (m & rest & _ & _ & _ & _ & _ & Hg & ->).
  cbn [st_tokens]. apply Forall_app. split; [exact IH|].
  eapply emitted_plain. exact Hg.
Qed.

Lemma tokenize_plain (text : str) (tokens : list Token) :
  tokenize text = Some (Return tokens) -> Forall plain tokens.
Proof.
  intros Ht. destruct (tokenize_return text tokens Ht) as (st & Hr & _ & <-).
  exact (reaches_plain text st Hr).
Qed.

Lemma table_newlines (header rule : str) (row : Token -> str) (tokens : list Token) :
  count header newline = 0 ->
  count rule newline = 0 ->
  Forall (fun t => count (row t) newline = 0) tokens ->
  count (join [newline] ([header; rule] ++ map row tokens)) newline
  = 1 + Z.of_nat (length tokens).
Proof.
  intros Hh Hr Hrows. rewrite count_join.
  - rewrite length_app, length_map. cbn [length]. lia.
  - discriminate.
  - apply Forall_app. split; [repeat constructor; assumption|].
    apply Forall_map. exact Hrows.
Qed.

Lemma table_row {A : Type} (row : A -> str) (head : list str) (l : list A)
      (i : nat) (t : A) :
  nth_error l i = Some t ->
  nth_error (head ++ map row l) (length head + i) = Some (row t).
Proof.
  intros H. rewrite nth_error_app2 by lia.
  replace (length head + i - length head)%nat with i by lia.
  apply map_nth_error. exact H.
Qed.

Lemma split_at (a b : str) (n : Z) :
  len a = n -> slice_to (a ++ b) n = a /\ slice_from (a ++ b) n = b.
Proof. intros <-. split; [apply slice_to_app | apply slice_from_app]. Qed.

Lemma type_field (t : Token) :
  plain t -> len (ljust (lit (type t)) 12 ++ lit " ") = 13.
Proof.
  intros (_ & _ & H). rewrite len_app, len_ljust.
  change (len (lit " ")) with 1. lia.
Qed.

Lemma taller_format_lines (tokens : list Token) :
  Taller.format_lines tokens =
  [ ljust (lit "TYPE") 12 ++ lit " " ++ ljust (lit "LEXEME") 10;
    times (lit "-") 23 ]
    ++ map (fun t => ljust (lit (type t)) 12 ++ lit " " ++ ljust (lexeme t) 10)
         tokens.
Proof. unfold Taller.format_lines. rewrite fold_left_append. reflexivity. Qed.

Lemma demo_format_lines (tokens : list Token) :
  Demo.format_lines tokens =
  [ ljust (lit "TYPE") 12 ++ lit " " ++ ljust (lit "LEXEME") 10 ++ lit " "
      ++ ljust (lit "LINE") 5 ++ lit " " ++ ljust (lit "COL") 5;
    times (lit "-") 35 ]
    ++ map (fun t => ljust (lit (type t)) 12 ++ lit " " ++ ljust (lexeme t) 10
                       ++ lit " " ++ ljust (repr (line t)) 5 ++ lit " "
                       ++ ljust (repr (col t)) 5)
         tokens.
Proof. unfold Demo.format_lines. rewrite fold_left_append. reflexivity. Qed.

(** X11. For the tokens of a text that tokenizes, the table of
    [lexer_taller.py] has one line per token after its two header lines and
    no other newline, and in the line of each token the category fills
    exactly the first 12 columns, a space follows, and the lexeme starts in
    column 14, padded to 10 characters if shorter. *)
Theorem X11_taller_table (text : str) (tokens : list Token) :
  tokenize text = Some (Return tokens) ->
  count (Taller.format_tokens tokens) newline = 1 + Z.of_nat (length tokens)
  /\ forall (i : nat) (t : Token),
      nth_error tokens i = Some t ->
      exists row,
        nth_error (Taller.format_lines tokens) (2 + i) = Some row
        /\ slice_to row 13 = ljust (lit (type t)) 12 ++ [space]
        /\ slice_from row 13 = ljust (lexeme t) 10
        /\ len row = 13 + Z.max 10 (len (lexeme t)).
Proof.
  intros Ht. pose proof (tokenize_plain text tokens Ht) as Hp.
  unfold Taller.format_tokens. rewrite taller_format_lines. split.
  - apply table_newlines; [reflexivity | reflexivity |].
    eapply Forall_impl; [|exact Hp]. cbv beta. intros t (Hl & Hty & _).
    rewrite !count_app, !count_ljust, Hl, Hty. reflexivity.
  - intros i t Hi. eexists. split.
    + exact (table_row _ [_; _] tokens i t Hi).
    + cbv beta. rewrite Forall_forall in Hp.
      pose proof (type_field t (Hp t (nth_error_In _ _ Hi))) as H13.
      rewrite app_assoc.
      destruct (split_at _ (ljust (lexeme t) 10) 13 H13) as [H1 H2].
      split; [exact H1|]. split; [exact H2|].
      rewrite len_app, H13, len_ljust. reflexivity.
Qed.

(** The table of "if (x": the third line is that of the keyword. *)
Lemma X11_witness :
  let tokens := [ mkToken "KEYWORD" (lit "if") 1 1;
                  mkToken "DELIMITER" (lit "(") 1 4;
                  mkToken "IDENTIFIER" (lit "x") 1 5 ] in
  count (Taller.format_tokens tokens) newline = 4
  /\ exists row,
      nth_error (Taller.format_lines tokens) 2 = Some row
      /\ slice_to row 13 = lit "KEYWORD      "
      /\ slice_from row 13 = lit "if        "
      /\ len row = 23.
Proof.
  pose proof (X11_taller_table (lit "if (x") _ eq_refl) as [Hn Hrow].
  split; [exact Hn|].
  exact (Hrow 0%nat (mkToken "KEYWORD" (lit "if") 1 1) eq_refl).
Defined.

(** X12. For the tokens of a text that tokenizes, the table of
    [lexer,0,0.py] has one line per token after its two header lines and no
    other newline, and in the line of each token the category fills exactly
    the first 12 columns and is followed by a space, the lexeme padded to
    10, a space, the line number padded to 5, a space and the column number
    padded to 5. *)
Theorem X12_demo_table (text : str) (tokens : list Token) :
  tokenize text = Some (Return tokens) ->
  count (Demo.format_tokens tokens) newline = 1 + Z.of_nat (length tokens)
  /\ forall (i : nat) (t : Token),
      nth_error tokens i = Some t ->
      exists row,
        nth_error (Demo.format_lines tokens) (2 + i) = Some row
        /\ slice_to row 13 = ljust (lit (type t)) 12 ++ [space]
        /\ slice_from row 13 =
           ljust (lexeme t) 10 ++ [space] ++ ljust (repr (line t)) 5
             ++ [space] ++ ljust (repr (col t)) 5.
Proof.
  intros Ht. pose proof (tokenize_plain text tokens Ht) as Hp.
  unfold Demo.format_tokens. rewrite demo_format_lines. split.
  - apply table_newlines; [reflexivity | reflexivity |].
    eapply Forall_impl; [|exact Hp]. cbv beta. intros t (Hl & Hty & _).
    rewrite !count_app, !count_ljust, !count_repr, Hl, Hty. reflexivity.
  - intros i t Hi. eexists. split.
    + exact (table_row _ [_; _] tokens i t Hi).
    + cbv beta. rewrite Forall_forall in Hp.
      pose proof (type_field t (Hp t (nth_error_In _ _ Hi))) as H13.
      rewrite app_assoc. exact (split_at _ _ 13 H13).
Qed.

(** The line of "y" in the table of "x", newline, two spaces, "y". *)
Lemma X12_witness :
  let tokens := [ mkToken "IDENTIFIER" (lit "x") 1 1;
                  mkToken "IDENTIFIER" (lit "y") 2 3 ] in
  count (Demo.format_tokens tokens) newline = 3
  /\ exists row,
      nth_error (Demo.format_lines tokens) 3 = Some row
      /\ slice_to row 13 = lit "IDENTIFIER   "
      /\ slice_from row 13 = lit "y          2     3    ".
Proof.
  pose proof (X12_demo_table (lit "x" ++ [newline] ++ lit "  y") _ eq_refl)
    as [Hn Hrow].
  split; [exact Hn|].
  exact (Hrow 1%nat (mkToken "IDENTIFIER" (lit "y") 2 3) eq_refl).
Defined.

(** ** The two [main] functions *)






(** ** The error message *)

Lemma lit_inj (a b : string) : lit a = lit b -> a = b.
Proof.
  unfold lit. intros H.
  rewrite <- (string_of_list_ascii_of_string a), <- (string_of_list_ascii_of_string b).
  f_equal. revert H. generalize (list_ascii_of_string a) (list_ascii_of_string b).
  induction l as [|x l IH]; intros [|y l'] H; try discriminate H; [reflexivity|].
  cbn [map] in H. injection H as Hxy Hl. f_equal; [|exact (IH l' Hl)].
  unfold ord in Hxy. rewrite <- (ascii_N_embedding x), <- (ascii_N_embedding y).
  f_equal. exact Hxy.
Qed.

Lemma to_int_proper (n : Z) :
  Z.to_int n <> Decimal.Pos Decimal.Nil /\ Z.to_int n <> Decimal.Neg Decimal.Nil.
Proof.
  destruct n as [|p|p]; cbn [Z.to_int]; split; try discriminate;
    intros [= H]; exact (DecimalPos.Unsigned.to_uint_nonnil p H).
Qed.

Lemma repr_inj (a b : Z) : repr a = repr b -> a = b.
Proof.
  unfold repr. intros H. apply lit_inj in H.
  apply (f_equal NilZero.int_of_string) in H.
  destruct (to_int_proper a) as [Ha1 Ha2]. destruct (to_int_proper b) as [Hb1 Hb2].
  rewrite !NilZero.isi in H by assumption. injection H as H.
  exact (DecimalZ.to_int_inj a b H).
Qed.

Lemma split_unique (x : char) (a a' b b' : str) :
  a ++ x :: b = a' ++ x :: b' ->
  Forall (fun c => c <> x) a -> Forall (fun c => c <> x) a' ->
  a = a' /\ b = b'.
Proof.
  revert a'. induction a as [|y a IH]; intros [|y' a'] H Ha Ha'; cbn [app] in H.
  - injection H as <-. auto.
  - injection H as <- _. inversion Ha'; congruence.
  - injection H as -> _. inversion Ha; congruence.
  - injection H as <- H. inversion Ha; inversion Ha'; subst.
    destruct (IH a' H) as [-> ->]; auto.
Qed.

(** X15. The error message determines the character, the line and the
    column it was built from: two messages are equal only if all three are. *)
Theorem X15_error_message_injective (c c' : char) (line line' col col' : Z) :
  error_message c line col = error_message c' line' col' ->
  c = c' /\ line = line' /\ col = col'.
Proof.
  unfold error_message. intros H.
  repeat apply app_inv_head in H.
  cbn [app] in H. injection H as Hc H.
  repeat apply app_inv_head in H.
  change (lit ", columna ") with (ord "," :: lit " columna ") in H.
  cbn [app] in H.
  apply split_unique in H;
    [|apply repr_no; [reflexivity | discriminate]
     |apply repr_no; [reflexivity | discriminate]].
  destruct H as [Hl H].
  repeat match type of H with _ :: _ = _ :: _ => injection H as H end.
  apply app_inv_tail in H.
  auto using repr_inj.
Qed.

(** The message for 'A' at line 1, column 5 against itself. *)
Lemma X15_witness : ord "A" = ord "A" /\ 1 = 1 /\ 5 = 5.
Proof. exact (X15_error_message_injective (ord "A") (ord "A") 1 1 5 5 eq_refl). Defined.
